(** * ts-type-explorer: flattening a localized type tree, and its tree-view metadata

    A shallow embedding of
    - [generateFlattenedTypeDefinition] and [copyTypeAsTypescriptType]
      (commands.ts, the "copy type as TypeScript type" command), and
    - [getMeta] with its helpers and [getDescriptionWithTypeArguments]
      (view/typeTreeViewLocalizer.ts),
    followed by the properties proved about them.

    Conventions.
    - An optional property [p?: T] is an [option T]; a flag that is only
      tested for truthiness is a [bool] ([false] when the property is absent).
    - A call that may throw yields a [Completion]; so does a call into the
      resolver or the language server, whose promise is fulfilled or
      rejected some time after the call.
    - An [async] function runs up to its first [await] when it is called and
      returns a [Promise]. The function goes on when the answer it awaits
      arrives; in between, other calls run on the same [seenRefs] set. The
      answers arrive in any order: a schedule picks, among the answers
      awaited at a moment, the one that arrives next, and the properties
      hold for every schedule. What is done between two [await]s is done at
      once: [children.map] makes the calls for all the children, each up to
      its first [await], before any of them goes on.
    - The recursion is bounded by fuel; [OutOfFuel] stands for a promise
      that is not settled within the fuel and the answers given. *)

From Stdlib Require Import ZArith String Ascii List Lia.
From stdpp Require Import base gmap strings list.

Set Warnings "-register-all".

(** ** JavaScript values, errors and completions *)

Inductive JsError : Type :=
| TypeError (msg : string)
| Error (msg : string)
| HostError (msg : string).

Inductive Completion (A : Type) : Type :=
| Normal (a : A)
| Throw (e : JsError).
Arguments Normal {A} a.
Arguments Throw {A} e.

(** The primitive values a literal node may carry. A number is kept as the
    text [Number.prototype.toString] prints for it. *)
Inductive JsValue : Type :=
| JsUndefined
| JsNull
| JsBoolean (b : bool)
| JsNumber (text : string)
| JsString (s : string).

Definition dquote : string := String "034"%char EmptyString.

(** [`${v}`] *)
Definition ToString (v : JsValue) : string :=
  match v with
  | JsUndefined => "undefined"
  | JsNull => "null"
  | JsBoolean true => "true"
  | JsBoolean false => "false"
  | JsNumber text => text
  | JsString s => s
  end.

(** [v.toString()] *)
Definition toString (v : JsValue) : Completion string :=
  match v with
  | JsUndefined => Throw (TypeError "Cannot read properties of undefined (reading 'toString')")
  | JsNull => Throw (TypeError "Cannot read properties of null (reading 'toString')")
  | _ => Normal (ToString v)
  end.

(** [a ?? b] *)
Definition nullish {A : Type} (a : option A) (b : A) : A :=
  match a with
  | Some x => x
  | None => b
  end.
Infix "??" := nullish (at level 45, left associativity).

(** Truthiness of a string: every string but the empty one. *)
Definition nonempty (s : string) : bool :=
  match s with
  | EmptyString => false
  | String _ _ => true
  end.

(** Truthiness of an optional string. *)
Definition truthy (s : option string) : bool :=
  match s with
  | Some s => nonempty s
  | None => false
  end.

(** [parts.join(sep)] *)
Definition join (sep : string) (parts : list string) : string :=
  String.concat sep parts.

(** ** The data model (package @ts-type-explorer/api) *)

Inductive SourceFileLocation : Type :=
| SourceLocation (fileName : string) (line character : Z).

Module Symbol.
Record t : Type := make {
  name : option string;
  anonymous : bool;
  insideClassOrInterface : bool;
  property : bool;
  isArgument : bool;
}.
End Symbol.
Abbreviation LocalizedSymbolInfo := Symbol.t.

(** [TypeInfo]: the tree before localization. The command only reads the
    name of its symbol. *)
Record SymbolInfo : Type := { symbolName : string }.
Record TypeInfo : Type := {
  symbolMeta : option SymbolInfo;
  typeId : string;
}.

(** [LocalizedTypeInfo]. [dimension] counts array nestings. [value] and
    [location] are the two properties the flattener reads past the declared
    type (under [@ts-ignore]); [location] is [None] on an object that does
    not carry such a property or carries a falsy one. *)
Inductive LocalizedTypeInfo : Type := mkLocalizedTypeInfo {
  kindText : option string;
  kind : option string;
  primitiveKind : option string;
  alias : option string;
  symbol : option LocalizedSymbolInfo;
  name : option string;
  purpose : option string;
  optional : bool;
  dimension : option nat;
  rest : bool;
  readonly : bool;
  locations : option (list SourceFileLocation);
  children : option (list LocalizedTypeInfo);
  _id : option string;
  value : JsValue;
  location : option SourceFileLocation;
}.

Inductive LocalizedTypeInfoOrError : Type :=
| Localized (info : LocalizedTypeInfo)
| LocalizeError (error : string).

(** An object without any of the properties above: what the flattener sees
    when it is handed an error marker [{ error }] as if it were a node. *)
Definition noInfo : LocalizedTypeInfo :=
  {| kindText := None; kind := None; primitiveKind := None; alias := None;
     symbol := None; name := None; purpose := None; optional := false;
     dimension := None; rest := false; readonly := false; locations := None;
     children := None; _id := None; value := JsUndefined; location := None |}.

Definition asInfo (child : LocalizedTypeInfoOrError) : LocalizedTypeInfo :=
  match child with
  | Localized info => info
  | LocalizeError _ => noInfo
  end.

(** [info.kind === k] *)
Definition kind_is (info : LocalizedTypeInfo) (k : string) : bool :=
  bool_decide (kind info = Some k).

(** [TypeInfoResolver]: the two methods the flattener calls. *)
Record TypeInfoResolver : Type := {
  localize : option TypeInfo -> Completion (option LocalizedTypeInfo);
  localizeChildren : LocalizedTypeInfo -> Completion (list LocalizedTypeInfoOrError);
}.

(** ** Promises over the shared visited set *)

(** How an awaited promise turns out. [OutOfFuel]: it is not settled within
    the fuel and the answers given. *)
Inductive Outcome (A : Type) : Type :=
| Fulfilled (a : A)
| Rejected (e : JsError)
| OutOfFuel.
Arguments Fulfilled {A} a.
Arguments Rejected {A} e.
Arguments OutOfFuel {A}.

Abbreviation SeenRefs := (gset string).

(** [info._id && seenRefs.has(info._id)] *)
Definition revisits (id : option string) (seen : SeenRefs) : bool :=
  match id with
  | Some i => nonempty i && bool_decide (i ∈ seen)
  | None => false
  end.

(** [if (info._id) seenRefs.add(info._id)] *)
Definition enter (id : option string) (seen : SeenRefs) : SeenRefs :=
  match id with
  | Some i => if nonempty i then {[ i ]} ∪ seen else seen
  | None => seen
  end.

(** The promise an [async] function of this file has returned:
    - [Settled]: the function has returned or thrown;
    - [Pending resume]: the function waits at an [await] for the answer of
      the resolver or of the language server; [resume] is the rest of its
      body up to the next such [await], run on the visited set found when
      the answer arrives;
    - [All promises k]: the function waits at [await Promise.all(promises)]
      and then returns [k] of the results: what follows this [await] only
      builds a text.
    A [Settled OutOfFuel] stands for a call that the fuel does not allow:
    it never settles. *)
Inductive Promise (A : Type) : Type :=
| Settled (o : Outcome A)
| Pending (resume : SeenRefs -> SeenRefs * Promise A)
| All (B : Type) (promises : list (Promise B)) (k : list B -> A).
Arguments Settled {A} o.
Arguments Pending {A} resume.
Arguments All {A B} promises k.

(** A call of an [async] function: its body runs on the visited set up to
    the first [await] and returns a promise. *)
Definition Async (A : Type) : Type := SeenRefs -> SeenRefs * Promise A.

(** An awaited call: the visited set and the outcome once the answers of a
    schedule have arrived. *)
Definition Awaited (A : Type) : Type := SeenRefs -> SeenRefs * Outcome A.

(** The number of calls into the resolver or the language server whose
    answer [p] waits for. *)
Fixpoint waiting {A : Type} (p : Promise A) : nat :=
  match p with
  | Settled _ => 0
  | Pending _ => 1
  | All ps _ => sum_list_with waiting ps
  end.

Definition rejection {A : Type} (p : Promise A) : option JsError :=
  match p with
  | Settled (Rejected e) => Some e
  | _ => None
  end.

Definition fulfilment {A : Type} (p : Promise A) : option A :=
  match p with
  | Settled (Fulfilled a) => Some a
  | _ => None
  end.

(** [Promise.all(promises)], followed by [k]: rejected as soon as one of the
    promises is, fulfilled once all of them are, waiting until then. *)
Definition allOf {A B : Type} (promises : list (Promise B)) (k : list B -> A) : Promise A :=
  match head (omap rejection promises) with
  | Some e => Settled (Rejected e)
  | None =>
      match mapM fulfilment promises with
      | Some values => Settled (Fulfilled (k values))
      | None => All promises k
      end
  end.

(** The answer number [n], counting the awaited answers from the left,
    arrives for one of several promises. *)
Definition among {P : Type} (waiting : P -> nat)
    (resume : nat -> P -> SeenRefs -> SeenRefs * P)
    : nat -> list P -> SeenRefs -> SeenRefs * list P :=
  fix go n ps seen :=
    match ps with
    | [] => (seen, [])
    | p :: ps =>
        if n <? waiting p
        then let '(seen, p) := resume n p seen in (seen, p :: ps)
        else let '(seen, ps) := go (n - waiting p) ps seen in (seen, p :: ps)
    end.

(** The answer number [n] of those [p] waits for arrives: the function that
    awaits it runs up to its next [await]. *)
Fixpoint resume {A : Type} (n : nat) (p : Promise A) (seen : SeenRefs)
    : SeenRefs * Promise A :=
  match p with
  | Settled o => (seen, Settled o)
  | Pending r => r seen
  | All ps k =>
      let '(seen, ps) := among waiting (fun n p => resume n p) n ps seen in
      (seen, allOf ps k)
  end.

Definition resumeAmong {B : Type}
    : nat -> list (Promise B) -> SeenRefs -> SeenRefs * list (Promise B) :=
  among waiting resume.

(** The answers arrive in the order of [schedule]: each entry picks, among
    the answers awaited at that moment, the one that arrives next. *)
Fixpoint run {A : Type} (schedule : list nat) (p : Promise A) (seen : SeenRefs)
    : SeenRefs * Promise A :=
  match schedule with
  | [] => (seen, p)
  | n :: schedule =>
      let '(seen, p) := resume (n mod waiting p) p seen in
      run schedule p seen
  end.

(** The same for several promises that nothing awaits together. *)
Fixpoint runAll {B : Type} (schedule : list nat) (ps : list (Promise B)) (seen : SeenRefs)
    : SeenRefs * list (Promise B) :=
  match schedule with
  | [] => (seen, ps)
  | n :: schedule =>
      let '(seen, ps) := resumeAmong (n mod sum_list_with waiting ps) ps seen in
      runAll schedule ps seen
  end.

Definition outcome {A : Type} (p : Promise A) : Outcome A :=
  match p with
  | Settled o => o
  | _ => OutOfFuel
  end.

Definition Outcome_map {A B : Type} (f : A -> B) (o : Outcome A) : Outcome B :=
  match o with
  | Fulfilled a => Fulfilled (f a)
  | Rejected e => Rejected e
  | OutOfFuel => OutOfFuel
  end.

(** The promise of a function that awaits [p] and returns [f] of its
    result. *)
Fixpoint thenReturn {A C : Type} (f : A -> C) (p : Promise A) : Promise C :=
  match p with
  | Settled o => Settled (Outcome_map f o)
  | Pending r => Pending (fun s => let '(s', p') := r s in (s', thenReturn f p'))
  | All ps k => All ps (fun bs => f (k bs))
  end.

(** [return a] *)
Definition ret {A : Type} (a : A) : Async A :=
  fun seen => (seen, Settled (Fulfilled a)).

(** [throw e] *)
Definition throw {A : Type} (e : JsError) : Async A :=
  fun seen => (seen, Settled (Rejected e)).

Definition outOfFuel {A : Type} : Async A :=
  fun seen => (seen, Settled OutOfFuel).

(** The value of an expression that may throw. *)
Definition completes {A : Type} (c : Completion A) : Async A :=
  match c with
  | Normal a => ret a
  | Throw e => throw e
  end.

(** [const x = await call(...)], for a call into the resolver or the
    language server that is answered by [answer]; [k] is the rest of the
    body. *)
Definition await {A B : Type} (answer : Completion A) (k : A -> Async B) : Async B :=
  fun seen =>
    (seen, Pending (fun seen =>
                      match answer with
                      | Normal a => k a seen
                      | Throw e => (seen, Settled (Rejected e))
                      end)).

Notation "'let*' x ':=' answer 'in' k" := (await answer (fun x => k))
  (at level 10, x name, answer at level 100, k at level 200).

(** [const a = await call; return f(a)], for a call of this file. *)
Definition awaitCall {A B : Type} (call : Async A) (f : A -> B) : Async B :=
  fun seen => let '(seen, promise) := call seen in (seen, thenReturn f promise).

(** [items.map(call)]: the calls are made one after the other, each up to
    its first [await]. *)
Fixpoint start {A : Type} (calls : list (Async A)) (seen : SeenRefs)
    : SeenRefs * list (Promise A) :=
  match calls with
  | [] => (seen, [])
  | call :: calls =>
      let '(seen, promise) := call seen in
      let '(seen, promises) := start calls seen in
      (seen, promise :: promises)
  end.

(** [const results = await Promise.all(items.map(call)); return f(results)] *)
Definition promiseAll {A B C : Type} (call : A -> Async B) (items : list A)
    (f : list B -> C) : Async C :=
  fun seen => let '(seen, promises) := start (map call items) seen in
              (seen, allOf promises f).

(** The call is made, and the answers of [schedule] arrive. *)
Definition awaited {A : Type} (schedule : list nat) (call : Async A) : Awaited A :=
  fun seen =>
    let '(seen, promise) := call seen in
    let '(seen, promise) := run schedule promise seen in
    (seen, outcome promise).

(** The outcome of a promise that is awaited with nothing else running. *)
Definition answers {A : Type} (c : Completion A) : Outcome A :=
  match c with
  | Normal a => Fulfilled a
  | Throw e => Rejected e
  end.

Definition andThen {A B : Type} (o : Outcome A) (k : A -> Outcome B) : Outcome B :=
  match o with
  | Fulfilled a => k a
  | Rejected e => Rejected e
  | OutOfFuel => OutOfFuel
  end.

Notation "'let?' x ':=' o 'in' k" := (andThen o (fun x => k))
  (at level 10, x name, o at level 100, k at level 200).

(** ** commands.ts: the flattener *)

Section Commands.

(** [getTypeTreeAtLocation], imported from the language-server client. *)
Variable getTypeTreeAtLocation : option SourceFileLocation -> Completion (option TypeInfo).

(** [formatAndCopyToClipboard]: editor plumbing, taken as given. *)
Variable formatAndCopyToClipboard : string -> Completion unit.

(** The property callback of the [object] case, given the recursive call. *)
Definition flattenProperty (flatten : LocalizedTypeInfo -> Async string)
    (child : LocalizedTypeInfoOrError) : Async (option string) :=
  match child with
  | LocalizeError _ => ret None
  | Localized child =>
      let propertyName := (mbind Symbol.name (symbol child)) ?? "unknown" in
      awaitCall (flatten child) (fun propertyType =>
        let optional := if optional child then "?" else EmptyString in
        Some (propertyName +:+ optional +:+ ": " +:+ propertyType))
  end.

Fixpoint generateFlattenedTypeDefinition (fuel : nat) (info : LocalizedTypeInfo)
    (resolver : TypeInfoResolver) : Async string :=
  match fuel with
  | O => outOfFuel
  | S fuel =>
    let flatten := fun child => generateFlattenedTypeDefinition fuel child resolver in
    fun seenRefs =>
    (* Handle cycles in type references *)
    if revisits (_id info) seenRefs then ret "any // Circular reference" seenRefs else
    let seenRefs := enter (_id info) seenRefs in
    (* Handle reference types *)
    (if kind_is info "reference" && bool_decide (is_Some (location info)) then
      match locations info with
      | None => throw (TypeError "Cannot read properties of undefined (reading '0')")
      | Some locs =>
          let* tree := getTypeTreeAtLocation (head locs) in
          let* resolvedTypeInfo := localize resolver tree in
          match resolvedTypeInfo with
          | Some resolved => flatten resolved
          | None => ret "any // Failed to resolve reference"
          end
      end
    (* Handle primitive types *)
    else if kind_is info "primitive" then
      ret (primitiveKind info ?? "any")
    (* Handle object types *)
    else if kind_is info "object" then
      let* children := localizeChildren resolver info in
      if (length children =? 0)%nat then ret "{}" else
      promiseAll (flattenProperty flatten) children (fun properties =>
        let validProperties := omap id properties in
        "{ " +:+ join "; " validProperties +:+ " }")
    (* Handle array types *)
    else if kind_is info "array" then
      let* children := localizeChildren resolver info in
      match children with
      | [] => ret "any[]"
      | child :: _ =>
          awaitCall (flatten (asInfo child)) (fun elementType => elementType +:+ "[]")
      end
    (* Handle tuple types *)
    else if kind_is info "tuple" then
      let* children := localizeChildren resolver info in
      promiseAll (fun child => flatten (asInfo child)) children (fun types =>
        "[" +:+ join ", " types +:+ "]")
    (* Handle union types *)
    else if kind_is info "union" then
      let* children := localizeChildren resolver info in
      promiseAll (fun child => flatten (asInfo child)) children (fun types =>
        join " | " types)
    (* Handle intersection types *)
    else if kind_is info "intersection" then
      let* children := localizeChildren resolver info in
      promiseAll (fun child => flatten (asInfo child)) children (fun types =>
        join " & " types)
    (* Handle string literal types *)
    else if kind_is info "string_literal" then
      ret (dquote +:+ ToString (value info) +:+ dquote)
    (* Handle number literal types *)
    else if kind_is info "number_literal" then
      completes (toString (value info))
    (* Handle boolean literal types *)
    else if kind_is info "boolean_literal" then
      completes (toString (value info))
    else ret "any") seenRefs
  end.

(** What the command shows to the user. *)
Inductive Notification : Type :=
| InformationMessage (text : string)
| ErrorMessage (text : string).

(** [StateManager], as far as the command reads it: [getTypeTree()] and
    [typeTreeProvider?.getTypeInfoResolver()]. *)
Record StateManager : Type := {
  getTypeTree : option TypeInfo;
  getTypeInfoResolver : option TypeInfoResolver;
}.

(** The body of the [try] block. The command awaits one promise after the
    other; the flattening starts from a visited set of its own,
    [new Set()]. *)
Definition copyAttempt (schedule : list nat) (fuel : nat) (typeInfo : TypeInfo)
    (typeInfoResolver : TypeInfoResolver) : Outcome unit :=
  let? localizedTypeInfo := answers (localize typeInfoResolver (Some typeInfo)) in
  let? flattenedType :=
    match localizedTypeInfo with
    | Some localizedTypeInfo =>
        (awaited schedule
           (generateFlattenedTypeDefinition fuel localizedTypeInfo typeInfoResolver) ∅).2
    | None => Rejected (TypeError "Cannot read properties of undefined (reading '_id')")
    end in
  let? name :=
    answers (match symbolMeta typeInfo with
             | Some meta => Normal (symbolName meta)
             | None => Throw (TypeError "Cannot read properties of undefined (reading 'name')")
             end) in
  answers (formatAndCopyToClipboard ("type " +:+ name +:+ " = " +:+ flattenedType)).

(** [None]: the flattening is not settled within [fuel] and [schedule]. *)
Definition copyTypeAsTypescriptType (schedule : list nat) (fuel : nat)
    (stateManager : StateManager) : option Notification :=
  match getTypeTree stateManager, getTypeInfoResolver stateManager with
  | Some typeInfo, Some typeInfoResolver =>
      match copyAttempt schedule fuel typeInfo typeInfoResolver with
      | Fulfilled _ => Some (InformationMessage "Flattened type copied to clipboard!")
      | Rejected _ => Some (ErrorMessage "Failed to copy type information.")
      | OutOfFuel => None
      end
  | _, _ => Some (InformationMessage "No type information available.")
  end.

End Commands.

(** ** view/typeTreeViewLocalizer.ts: display metadata *)

(** [vscode.TreeItemCollapsibleState]; [NoChildren] is its [None]. *)
Inductive TreeItemCollapsibleState : Type :=
| NoChildren
| Collapsed
| Expanded.

Inductive TypeTreeItemContextValue : Type :=
| declared.

(** [new vscode.ThemeIcon(id, color)], the colour given by its id. *)
Record ThemeIcon : Type := {
  iconId : string;
  iconColor : option string;
}.

Record TypeTreeItemMeta : Type := {
  label : string;
  description : option string;
  contextValue : option TypeTreeItemContextValue;
  icon : option ThemeIcon;
  collapsibleState : TreeItemCollapsibleState;
}.

Record DescriptionParts : Type := {
  parts_alias : option string;
  parts_base : option string;
  parts_readonly : bool;
}.

(** The settings read through [config]. *)
Record Config : Type := {
  iconsEnabled : bool;
  iconColorsEnabled : bool;
  readonlyEnabled : bool;
}.

Definition bindC {A B : Type} (c : Completion A) (k : A -> Completion B) : Completion B :=
  match c with
  | Normal a => k a
  | Throw e => Throw e
  end.

Notation "'let!' x ':=' c 'in' k" := (bindC c (fun x => k))
  (at level 10, x name, c at level 100, k at level 200).

(** [x] is one of the [case] labels sharing a branch. *)
Definition one_of (x : option string) (cases : list string) : bool :=
  match x with
  | Some s => bool_decide (s ∈ cases)
  | None => false
  end.

(** [s.length]: the number of UTF-16 code units of [s]. A text is kept in
    UTF-8 here: a byte below 128 is a character of one unit; a byte from 192
    on starts a character, of one unit, or of two (a surrogate pair) when it
    takes four bytes, from 240 on; the bytes in between continue a character
    and count for nothing. *)
Fixpoint String_length (s : string) : nat :=
  match s with
  | EmptyString => 0
  | String c s =>
      let byte := nat_of_ascii c in
      (if byte <? 128 then 1 else if byte <? 192 then 0 else if byte <? 240 then 1 else 2)
      + String_length s
  end.

(** [s.repeat(count)], for a count that is a natural number. *)
Fixpoint String_repeat (s : string) (count : nat) : string :=
  match count with
  | O => EmptyString
  | S count => s +:+ String_repeat s count
  end.

Section View.

Variable config : Config.

(** [localizePurpose], from the api package. *)
Variable localizePurpose : string -> string.

Definition addDecorations (text : string) (rest optional : bool)
    (dimension : option nat) : string :=
  let dimension := dimension ?? 0 in
  let text := text +:+ String_repeat "[]" dimension in
  let text := if optional then text +:+ "?" else text in
  let text := if rest then "..." +:+ text else text in
  text.

Definition getLabelByName (info : LocalizedTypeInfo) : option string :=
  name info.

Definition getLabelByPurpose (info : LocalizedTypeInfo) : option string :=
  match purpose info with
  | Some p => if nonempty p then Some ("<" +:+ localizePurpose p +:+ ">") else None
  | None => None
  end.

Definition getLabelOverride (info : LocalizedTypeInfo) : option string :=
  match getLabelByName info with
  | Some n => Some n
  | None => getLabelByPurpose info
  end.

Definition getLabelBase (info : LocalizedTypeInfo) : string :=
  getLabelOverride info ??
    (if negb (from_option Symbol.anonymous false (symbol info))
     then mbind Symbol.name (symbol info) ?? EmptyString
     else EmptyString).

Definition getLabel (info : LocalizedTypeInfo) : string :=
  let base := getLabelBase info in
  if negb (nonempty base) then base
  else addDecorations base (rest info) (optional info) None.

Definition getDescriptionParts (info : LocalizedTypeInfo) : DescriptionParts :=
  match kindText info with
  | None => {| parts_alias := None; parts_base := None; parts_readonly := false |}
  | Some text =>
    if negb (nonempty text)
    then {| parts_alias := None; parts_base := None; parts_readonly := false |}
    else
      let decorate := fun text => addDecorations text false false (dimension info) in
      let baseDescription := decorate text in
      let nameOverridden := truthy (getLabelOverride info) in
      let aliasDescriptionBase :=
        match alias info with
        | Some a => Some a
        | None =>
            if nameOverridden && negb (bool_decide (purpose info = Some "jsx_properties"))
            then mbind Symbol.name (symbol info)
            else None
        end in
      let aliasDescription :=
        match aliasDescriptionBase with
        | Some a => if nonempty a then Some (decorate a) else Some a
        | None => None
        end in
      {| parts_alias := aliasDescription;
         parts_base := Some baseDescription;
         parts_readonly := readonly info && readonlyEnabled config |}
  end.

Definition descriptionPartsToString (parts : DescriptionParts) : option string :=
  match parts_base parts with
  | None => None
  | Some base =>
    if negb (nonempty base) then None
    else
      let result :=
        if truthy (parts_alias parts)
        then (parts_alias parts ?? EmptyString) +:+ " (" +:+ base +:+ ")"
        else base in
      Some (if parts_readonly parts then "readonly " +:+ result else result)
  end.

Definition getDescription (info : LocalizedTypeInfo) : option string :=
  descriptionPartsToString (getDescriptionParts info).

Definition getCollapsibleState (info : LocalizedTypeInfo) (depth : Z)
    : TreeItemCollapsibleState :=
  if (from_option length 0 (children info) =? 0)%nat
  then NoChildren
  else if bool_decide (purpose info = Some "jsx_properties") then Expanded
  else if (depth =? 1)%Z then Expanded else Collapsed.

Definition getContextValue (info : LocalizedTypeInfo) : option TypeTreeItemContextValue :=
  match locations info with
  | Some locs => if (0 <? length locs)%nat then Some declared else None
  | None => None
  end.

(** [IconId]: the icon id and an optional colour id. *)
Definition IconId : Type := string * option string.

Definition _getIcon (info : LocalizedTypeInfo) : Completion IconId :=
  if from_option Symbol.property false (symbol info) then Normal ("symbol-field", None)
  else if from_option Symbol.isArgument false (symbol info) then Normal ("symbol-property", None)
  else if bool_decide (purpose info = Some "class_constructor")
  then Normal ("symbol-constructor", None)
  else if kind_is info "primitive" then
    if one_of (primitiveKind info) ["essymbol"; "unique_symbol"; "string"]
    then Normal ("symbol-string", None)
    else if one_of (primitiveKind info) ["bigint"; "number"]
    then Normal ("symbol-numeric", None)
    else if one_of (primitiveKind info) ["boolean"]
    then Normal ("symbol-boolean", None)
    else if one_of (primitiveKind info) ["unknown"; "any"; "void"; "undefined"; "null"]
    then Normal ("symbol-null", None)
    else if one_of (primitiveKind info) ["never"]
    then Normal ("error", Some "symbolIcon.nullForeground")
    else Throw (Error "Unhandled primitive case")
  else if one_of (kind info) ["object"] then Normal ("symbol-object", None)
  else if one_of (kind info) ["type_parameter"] then Normal ("symbol-type-parameter", None)
  else if one_of (kind info) ["string_mapping"; "template_literal"; "string_literal"]
  then Normal ("symbol-text", None)
  else if one_of (kind info) ["bigint_literal"; "number_literal"]
  then Normal ("symbol-number", None)
  else if one_of (kind info) ["boolean_literal"] then Normal ("symbol-boolean", None)
  else if one_of (kind info) ["enum"] then Normal ("symbol-enum", None)
  else if one_of (kind info) ["enum_literal"] then Normal ("symbol-enum-member", None)
  else if one_of (kind info) ["tuple"; "array"] then Normal ("symbol-array", None)
  else if one_of (kind info) ["intrinsic"] then Normal ("symbol-keyword", None)
  else if one_of (kind info) ["conditional"]
  then Normal ("question", Some "symbolIcon.keywordForeground")
  else if one_of (kind info) ["substitution"; "non_primitive"]
  then Normal ("symbol-misc", None)
  else if one_of (kind info) ["union"; "intersection"] then Normal ("symbol-struct", None)
  else if one_of (kind info) ["signature"; "function"] then
    if from_option Symbol.insideClassOrInterface false (symbol info)
    then Normal ("symbol-method", None)
    else Normal ("symbol-function", None)
  else if one_of (kind info) ["interface"] then Normal ("symbol-interface", None)
  else if one_of (kind info) ["namespace"] then Normal ("symbol-namespace", None)
  else if one_of (kind info) ["module"] then Normal ("symbol-module", None)
  else if one_of (kind info) ["class"] then Normal ("symbol-class", None)
  else if one_of (kind info) ["index_info"; "indexed_access"; "index"]
  then Normal ("key", Some "symbolIcon.keyForeground")
  else Normal ("symbol-misc", None).

(** Both destructurings, [const [id] = iconIds] and [let [colorId] = iconIds],
    take the first component. *)
Definition getIcon (info : LocalizedTypeInfo) : Completion (option ThemeIcon) :=
  if negb (iconsEnabled config) then Normal None
  else
    let! iconIds := _getIcon info in
    let id := fst iconIds in
    let colorId := fst iconIds in
    let colorId := if negb (iconColorsEnabled config) then "icon.foreground" else colorId in
    Normal (Some (if negb (nonempty colorId)
                  then {| iconId := id; iconColor := None |}
                  else {| iconId := id; iconColor := Some colorId |})).

Definition getMeta (info : LocalizedTypeInfo) (depth : Z) : Completion TypeTreeItemMeta :=
  let label := getLabel info in
  let description := getDescription info in
  let collapsibleState := getCollapsibleState info depth in
  let contextValue := getContextValue info in
  let! icon := getIcon info in
  Normal {| label := label;
            description := description;
            contextValue := contextValue;
            icon := icon;
            collapsibleState := collapsibleState |}.

End View.

(** ** view/typeTreeViewLocalizer.ts: descriptions with type arguments *)

Section TypeArgumentDescriptions.

Variable config : Config.

Variable localizePurpose : string -> string.

(** [descriptionTypeArgumentsEnabled.get()] and
    [descriptionTypeArgumentsMaxLength.get()], two more settings. *)
Variable descriptionTypeArgumentsEnabled : bool.
Variable descriptionTypeArgumentsMaxLength : option Z.

(** [arg.typeArguments]: the one property of a node read here that the
    record above does not carry, given by its accessor. *)
Variable typeArguments : LocalizedTypeInfo -> option (list LocalizedTypeInfo).

(** The body of the loop over [resolvedTypeArguments]: what is pushed for
    [arg]. *)
Definition typeArgumentText (arg : LocalizedTypeInfo) : string :=
  let parts := getDescriptionParts config localizePurpose arg in
  let base := parts_base parts in
  let alias := parts_alias parts in
  let baseText :=
    match alias with
    | Some a => a
    | None => base ?? "???"
    end in
  if truthy alias
     && match typeArguments arg with
        | Some arguments => (0 <? length arguments)%nat
        | None => false
        end
  then baseText +:+ "<...>"
  else baseText.

Definition getDescriptionWithTypeArguments (info : LocalizedTypeInfo)
    (resolvedTypeArguments : list LocalizedTypeInfo) : option string :=
  let parts := getDescriptionParts config localizePurpose info in
  let parts :=
    if descriptionTypeArgumentsEnabled then
      if truthy (parts_alias parts) then
        let args := map typeArgumentText resolvedTypeArguments in
        let argsText := join ", " args in
        let argsText :=
          if (descriptionTypeArgumentsMaxLength ?? 10 <? Z.of_nat (String_length argsText))%Z
          then "..."
          else argsText in
        {| parts_alias := Some ((parts_alias parts ?? EmptyString)
                                +:+ "<" +:+ argsText +:+ ">");
           parts_base := parts_base parts;
           parts_readonly := parts_readonly parts |}
      else parts
    else parts in
  descriptionPartsToString parts.

End TypeArgumentDescriptions.

(** The brackets that show the array dimension of a node. *)
Definition brackets (info : LocalizedTypeInfo) : string :=
  String_repeat "[]" (dimension info ?? 0).

(** The word put before the description of a readonly node. *)
Definition readonlyPrefix (config : Config) (info : LocalizedTypeInfo) : string :=
  if readonly info && readonlyEnabled config then "readonly " else EmptyString.

(** ** Vocabulary of the statements *)

(** [settlesAll schedule calls seen results seen']: the calls are made in
    order from the visited set [seen], each up to its first [await], as
    [items.map(call)] makes them; the answers of [schedule] then arrive; in
    the end every call is fulfilled, the call number [k] with the result
    number [k], and the visited set is [seen']. *)
Definition settlesAll {A : Type} (schedule : list nat) (calls : list (Async A))
    (seen : SeenRefs) (results : list A) (seen' : SeenRefs) : Prop :=
  runAll schedule (start calls seen).2 (start calls seen).1
  = (seen', map (fun result => Settled (Fulfilled result)) results).

(** The visited set from which the call number [k] of [calls] is made. *)
Definition madeFrom {A : Type} (calls : list (Async A)) (seen : SeenRefs) (k : nat)
    : SeenRefs :=
  (start (take k calls) seen).1.

(** The children that are nodes, not error markers. *)
Definition localizable (children : list LocalizedTypeInfoOrError) : list LocalizedTypeInfo :=
  omap (fun child => match child with
                     | Localized info => Some info
                     | LocalizeError _ => None
                     end) children.

(** The entry [name?: Type] of a property. *)
Definition propertyEntry (child : LocalizedTypeInfo) (type : string) : string :=
  (mbind Symbol.name (symbol child) ?? "unknown")
    +:+ (if optional child then "?" else EmptyString) +:+ ": " +:+ type.

(** [m] only ever adds to the visited set. *)
Definition grows {A : Type} (m : Awaited A) : Prop :=
  forall seen seen' o, m seen = (seen', o) -> seen ⊆ seen'.

(** Started from [seen], [m] is settled. *)
Definition finishes {A : Type} (m : Awaited A) (seen : SeenRefs) : Prop :=
  (m seen).2 <> OutOfFuel.

(** Started from [seen], [m] is not rejected. *)
Definition neverRejects {A : Type} (m : Awaited A) (seen : SeenRefs) : Prop :=
  forall e, (m seen).2 <> Rejected e.


(** *** What the promises of the flattener respect *)

(** For [n] resumptions, whatever the visited set each of them finds: the
    visited set only grows and, unless [mayReject], the promise is never
    rejected. *)
Fixpoint behaves {A : Type} (mayReject : bool) (n : nat) (p : Promise A) : Prop :=
  (mayReject = false -> rejection p = None)
  /\ match n with
     | O => True
     | S n => forall m s, s ⊆ (resume m p s).1 /\ behaves mayReject n (resume m p s).2
     end.

(** The same for a call, from the moment it is made. *)
Definition wellBehaved {A : Type} (mayReject : bool) (call : Async A) : Prop :=
  forall s n, s ⊆ (call s).1 /\ behaves mayReject n (call s).2.

(** [p] is fulfilled or rejected. *)
Definition settled {A : Type} (p : Promise A) : Prop :=
  exists o, p = Settled o /\ o <> OutOfFuel.

(** [p] is settled after at most [n] of its calls were answered, whatever
    was added to the visited set [seen] each time. *)
Fixpoint within {A : Type} (n : nat) (p : Promise A) (seen : SeenRefs) : Prop :=
  match n with
  | O => settled p
  | S n =>
      settled p
      \/ (0 < waiting p
          /\ forall m s, m < waiting p -> seen ⊆ s ->
               s ⊆ (resume m p s).1 /\ within n (resume m p s).2 (resume m p s).1)
  end.

(** For [n] resumptions, whatever the visited set each of them finds, the
    promise is neither fulfilled nor rejected. *)
Fixpoint pends {A : Type} (n : nat) (p : Promise A) : Prop :=
  outcome p = OutOfFuel
  /\ match n with
     | O => True
     | S n => forall m s, pends n (resume m p s).2
     end.

(** A call either settles at once and leaves the visited set as it is, or
    takes an identifier and is settled after [budget] answers. *)
Definition takes {A : Type} (ids : gset string) (budget : nat) (call : Async A)
    (seen : SeenRefs) : Prop :=
  seen ⊆ (call seen).1
  /\ ((call seen).1 = seen /\ settled (call seen).2
      \/ size (ids ∖ (call seen).1) < size (ids ∖ seen)
         /\ within budget (call seen).2 (call seen).1).

(** The promises of the property callbacks, [ps], against the promises of
    the calls they await, [qs]: an error marker has a promise fulfilled with
    [null] and no call; a node has the promise of its call, followed by the
    making of its entry. *)
Inductive shadows : list LocalizedTypeInfoOrError -> list (Promise (option string))
                    -> list (Promise string) -> Prop :=
| shadows_nil : shadows [] [] []
| shadows_error e cs ps qs :
    shadows cs ps qs ->
    shadows (LocalizeError e :: cs) (Settled (Fulfilled None) :: ps) qs
| shadows_info c cs q ps qs :
    shadows cs ps qs ->
    shadows (Localized c :: cs)
      (thenReturn (fun type => Some (propertyEntry c type)) q :: ps) (q :: qs).

(** A node that carries a non-empty identifier of [ids]. *)
Definition tracked (ids : gset string) (info : LocalizedTypeInfo) : Prop :=
  exists i, _id info = Some i /\ nonempty i = true /\ i ∈ ids.

(** Every node the resolver hands out carries an identifier of [ids]. *)
Definition identifies (ids : gset string) (resolver : TypeInfoResolver) : Prop :=
  (forall info children child,
      localizeChildren resolver info = Normal children ->
      Localized child ∈ children -> tracked ids child)
  /\ (forall tree resolved,
         localize resolver tree = Normal (Some resolved) -> tracked ids resolved).

(** A node on which the flattener's own property reads succeed: a number or
    boolean literal has a value, and a [location] comes with [locations]. *)
Definition readable (info : LocalizedTypeInfo) : Prop :=
  (one_of (kind info) ["number_literal"; "boolean_literal"] = true ->
   value info <> JsUndefined /\ value info <> JsNull)
  /\ (is_Some (location info) -> is_Some (locations info)).

(** No call into the resolver or the language server throws, and the nodes
    they return are [readable]. *)
Definition dependable
    (getTypeTreeAtLocation : option SourceFileLocation -> Completion (option TypeInfo))
    (resolver : TypeInfoResolver) : Prop :=
  (forall loc, exists tree, getTypeTreeAtLocation loc = Normal tree)
  /\ (forall tree, exists resolved, localize resolver tree = Normal resolved)
  /\ (forall info, exists children, localizeChildren resolver info = Normal children)
  /\ (forall info children child,
         localizeChildren resolver info = Normal children ->
         Localized child ∈ children -> readable child)
  /\ (forall tree resolved,
         localize resolver tree = Normal (Some resolved) -> readable resolved).

(** A number of answers after which the flattening of a node is settled
    when [unvisited] of the identifiers are not yet in the visited set: a
    node awaits at most two answers of its own, and each of its children
    that is not a revisit takes an identifier. *)
Fixpoint enoughAnswers (unvisited : nat) : nat :=
  match unvisited with
  | O => 0
  | S unvisited => 2 + unvisited * enoughAnswers unvisited
  end.

(** The kinds [generateFlattenedTypeDefinition] has a case for. *)
Definition handledKinds : list string :=
  ["reference"; "primitive"; "object"; "array"; "tuple"; "union"; "intersection";
   "string_literal"; "number_literal"; "boolean_literal"].

(** Number of positions of [text] at which [needle] starts. *)
Fixpoint occurrences (needle text : string) : nat :=
  match text with
  | EmptyString => if String.prefix needle EmptyString then 1 else 0
  | String _ text' =>
      (if String.prefix needle text then 1 else 0) + occurrences needle text'
  end.

(** The values of [primitiveKind] that [_getIcon] has a case for. *)
Definition knownPrimitiveKinds : list string :=
  ["essymbol"; "unique_symbol"; "string"; "bigint"; "number"; "boolean";
   "unknown"; "any"; "void"; "undefined"; "null"; "never"].

(** The kinds [_getIcon] has a case for. *)
Definition iconKinds : list string :=
  ["primitive"; "object"; "type_parameter"; "string_mapping"; "template_literal";
   "string_literal"; "bigint_literal"; "number_literal"; "boolean_literal"; "enum";
   "enum_literal"; "tuple"; "array"; "intrinsic"; "conditional"; "substitution";
   "non_primitive"; "union"; "intersection"; "signature"; "function"; "interface";
   "namespace"; "module"; "class"; "index_info"; "indexed_access"; "index"].

(** Neither the symbol nor the purpose of the node decides its icon: the
    switch over [kind] is reached. *)
Definition iconByKind (info : LocalizedTypeInfo) : bool :=
  negb (from_option Symbol.property false (symbol info))
  && negb (from_option Symbol.isArgument false (symbol info))
  && negb (bool_decide (purpose info = Some "class_constructor")).

(** ** Sample trees *)

Module Examples.

(** A language server that finds no tree, and a clipboard that works. *)
Definition noTree : option SourceFileLocation -> Completion (option TypeInfo) :=
  fun _ => Normal None.
Definition clipboard : string -> Completion unit :=
  fun _ => Normal tt.

Definition node (itsKind : string) (id : option string) : LocalizedTypeInfo :=
  {| kindText := None; kind := Some itsKind; primitiveKind := None; alias := None;
     symbol := None; name := None; purpose := None; optional := false;
     dimension := None; rest := false; readonly := false; locations := None;
     children := None; _id := id; value := JsUndefined; location := None |}.

Definition primitive (keyword id : string) : LocalizedTypeInfo :=
  {| kindText := Some keyword; kind := Some "primitive"; primitiveKind := Some keyword;
     alias := None; symbol := None; name := None; purpose := None; optional := false;
     dimension := None; rest := false; readonly := false; locations := None;
     children := None; _id := Some id; value := JsUndefined; location := None |}.

Definition literal (itsKind : string) (v : JsValue) (id : string) : LocalizedTypeInfo :=
  {| kindText := None; kind := Some itsKind; primitiveKind := None; alias := None;
     symbol := None; name := None; purpose := None; optional := false;
     dimension := None; rest := false; readonly := false; locations := None;
     children := None; _id := Some id; value := v; location := None |}.

Definition reference (id : string) (declarations : list SourceFileLocation)
    : LocalizedTypeInfo :=
  {| kindText := None; kind := Some "reference"; primitiveKind := None; alias := None;
     symbol := None; name := None; purpose := None; optional := false;
     dimension := None; rest := false; readonly := false;
     locations := Some declarations;
     children := None; _id := Some id; value := JsUndefined; location := None |}.

(** [info] as the property [itsName] of an object. *)
Definition property (itsName : string) (isOptional : bool) (info : LocalizedTypeInfo)
    : LocalizedTypeInfoOrError :=
  Localized
    {| kindText := kindText info; kind := kind info; primitiveKind := primitiveKind info;
       alias := alias info;
       symbol := Some (Symbol.make (Some itsName) false false true false);
       name := name info; purpose := purpose info; optional := isOptional;
       dimension := dimension info; rest := rest info; readonly := readonly info;
       locations := locations info; children := children info; _id := _id info;
       value := value info; location := location info |}.

(** A resolver that answers [localizeChildren] from a table keyed by [_id],
    with no children for a node the table does not list, and resolves no
    tree. *)
Definition childrenIn (table : list (option string * list LocalizedTypeInfoOrError))
    (info : LocalizedTypeInfo) : list LocalizedTypeInfoOrError :=
  from_option snd [] (find (fun row => bool_decide (fst row = _id info)) table).

Definition resolverOf (table : list (option string * list LocalizedTypeInfoOrError))
    : TypeInfoResolver :=
  {| localize := fun _ => Normal None;
     localizeChildren := fun info => Normal (childrenIn table info) |}.

(** [{ a: string, b?: number }] *)
Definition record : LocalizedTypeInfo := node "object" (Some "1").
Definition recordResolver : TypeInfoResolver :=
  resolverOf [(Some "1", [property "a" false (primitive "string" "2");
                          property "b" true (primitive "number" "3")])].



(** A reference to a declaration in [lib.ts]; and a resolver that would
    resolve every tree to [string]. *)
Definition declaration : SourceFileLocation := SourceLocation "lib.ts" 3 5.
Definition pointer : LocalizedTypeInfo := reference "1" [declaration].
Definition someTree : option SourceFileLocation -> Completion (option TypeInfo) :=
  fun _ => Normal (Some {| symbolMeta := None; typeId := "2" |}).
Definition stringResolver : TypeInfoResolver :=
  {| localize := fun _ => Normal (Some (primitive "string" "2"));
     localizeChildren := fun _ => Normal [] |}.

(** [type Outer = { inner: { ... } }], where listing the children of
    [inner] is rejected. *)
Definition outerTree : TypeInfo :=
  {| symbolMeta := Some {| symbolName := "Outer" |}; typeId := "1" |}.
Definition outer : LocalizedTypeInfo := node "object" (Some "1").
Definition inner : LocalizedTypeInfo := node "object" (Some "2").
Definition brokenResolver : TypeInfoResolver :=
  {| localize := fun _ => Normal (Some outer);
     localizeChildren := fun info =>
       if bool_decide (_id info = Some "1")
       then Normal [property "inner" false inner]
       else Throw (HostError "language server unavailable") |}.
Definition brokenState : StateManager :=
  {| getTypeTree := Some outerTree; getTypeInfoResolver := Some brokenResolver |}.

(** [type Outer = { a: string, b?: number }], all in order. *)
Definition rootedResolver : TypeInfoResolver :=
  {| localize := fun _ => Normal (Some record);
     localizeChildren := localizeChildren recordResolver |}.
Definition recordState : StateManager :=
  {| getTypeTree := Some outerTree; getTypeInfoResolver := Some rootedResolver |}.

(** [type T = { a: T, b: T }] *)
Definition twice : LocalizedTypeInfo := node "object" (Some "T").
Definition twiceResolver : TypeInfoResolver :=
  resolverOf [(Some "T", [property "a" false twice; property "b" false twice])].

(** [type Self = { self: Self }], built without identifiers. *)
Definition anonymousSelf : LocalizedTypeInfo := node "object" None.
Definition anonymousResolver : TypeInfoResolver :=
  resolverOf [(None, [property "self" false anonymousSelf])].

(** [type Node = { value: number, next: Node }] *)
Definition chain : LocalizedTypeInfo := node "object" (Some "Node").
Definition chainResolver : TypeInfoResolver :=
  resolverOf [(Some "Node", [property "value" false (primitive "number" "2");
                             property "next" false chain])].
Definition chainIds : gset string := {[ "Node"; "2" ]}.

(** An object whose tree carries its two properties in [children]. *)
Definition parent : LocalizedTypeInfo :=
  {| kindText := None; kind := Some "object"; primitiveKind := None; alias := None;
     symbol := None; name := None; purpose := None; optional := false;
     dimension := None; rest := false; readonly := false; locations := None;
     children := Some [primitive "string" "2"; primitive "number" "3"];
     _id := Some "1"; value := JsUndefined; location := None |}.

(** The settings with icons and colours on, and purposes shown verbatim. *)
Definition allOn : Config :=
  {| iconsEnabled := true; iconColorsEnabled := true; readonlyEnabled := true |}.
Definition verbatim : string -> string := fun purpose => purpose.

End Examples.

(** ** More sample trees *)

Module Samples.


(** [type Point = { x: number }] and [{ from: Point, to: Point }]: the same
    type twice, no cycle. *)
Definition point : LocalizedTypeInfo := Examples.node "object" (Some "Point").
Definition segment : LocalizedTypeInfo := Examples.node "object" (Some "Segment").
Definition segmentResolver : TypeInfoResolver :=
  Examples.resolverOf
    [(Some "Segment", [Examples.property "from" false point;
                       Examples.property "to" false point]);
     (Some "Point", [Examples.property "x" false (Examples.primitive "number" "2")])].

(** A reference whose object does carry a [location] property. *)
Definition located : LocalizedTypeInfo :=
  {| kindText := None; kind := Some "reference"; primitiveKind := None; alias := None;
     symbol := None; name := None; purpose := None; optional := false;
     dimension := None; rest := false; readonly := false;
     locations := Some [Examples.declaration];
     children := None; _id := Some "1"; value := JsUndefined;
     location := Some Examples.declaration |}.

(** A tuple with a slot that could not be localized, and an object with
    nothing but such a property. *)
Definition gapped : LocalizedTypeInfo := Examples.node "tuple" (Some "1").
Definition hollow : LocalizedTypeInfo := Examples.node "object" (Some "2").
Definition gapResolver : TypeInfoResolver :=
  Examples.resolverOf
    [(Some "1", [Localized (Examples.primitive "string" "3"); LocalizeError "stale symbol"]);
     (Some "2", [LocalizeError "stale symbol"])].

(** A tree without a symbol, as the type of an expression has. *)
Definition namelessTree : TypeInfo := {| symbolMeta := None; typeId := "1" |}.
Definition namelessState : StateManager :=
  {| getTypeTree := Some namelessTree;
     getTypeInfoResolver := Some Examples.rootedResolver |}.

(** [readonly items?: Item[][]], declared through the alias [Items]. *)
Definition items : LocalizedTypeInfo :=
  {| kindText := Some "array"; kind := Some "array"; primitiveKind := None;
     alias := Some "Items";
     symbol := Some (Symbol.make (Some "items") false false true false);
     name := None; purpose := None; optional := true;
     dimension := Some 2; rest := false; readonly := true; locations := None;
     children := None; _id := Some "1"; value := JsUndefined; location := None |}.

(** [[{ x: Name }, Name]] with [type Name = string]: the second slot has
    the type of the property of the first. *)
Definition name : LocalizedTypeInfo := Examples.primitive "string" "Name".
Definition holder : LocalizedTypeInfo := Examples.node "object" (Some "Holder").
Definition couple : LocalizedTypeInfo := Examples.node "tuple" (Some "Couple").
Definition coupleResolver : TypeInfoResolver :=
  Examples.resolverOf
    [(Some "Couple", [Localized holder; Localized name]);
     (Some "Holder", [Examples.property "x" false name])].


(** [[{ x: Name }, { y: Name }]]: two slots that both await the resolver. *)
Definition other : LocalizedTypeInfo := Examples.node "object" (Some "Other").
Definition rivals : LocalizedTypeInfo := Examples.node "tuple" (Some "Rivals").
Definition rivalsResolver : TypeInfoResolver :=
  Examples.resolverOf
    [(Some "Rivals", [Localized holder; Localized other]);
     (Some "Holder", [Examples.property "x" false name]);
     (Some "Other", [Examples.property "y" false name])].

End Samples.

(** ** Proof steps *)

(** Unfolds one call on a node that is not a revisit and whose kind is known. *)
Ltac enter_kind Hrevisit Hkind :=
  simpl; rewrite Hrevisit; unfold kind_is; rewrite Hkind; simpl.

(** * Properties *)

(** ** Promises *)

Lemma resume_All {A B} n (ps : list (Promise B)) (k : list B -> A) seen :
  resume n (All ps k) seen = ((resumeAmong n ps seen).1, allOf (resumeAmong n ps seen).2 k).
Proof.
  change (resume n (All ps k) seen)
    with (let '(seen, ps) := resumeAmong n ps seen in (seen, allOf ps k)).
  by destruct (resumeAmong n ps seen).
Qed.

Lemma resumeAmong_cons {B} n (p : Promise B) ps seen :
  resumeAmong n (p :: ps) seen
  = if n <? waiting p
    then ((resume n p seen).1, (resume n p seen).2 :: ps)
    else ((resumeAmong (n - waiting p) ps seen).1,
          p :: (resumeAmong (n - waiting p) ps seen).2).
Proof.
  unfold resumeAmong. simpl. destruct (n <? waiting p).
  - by destruct (resume n p seen).
  - by destruct (among waiting resume (n - waiting p) ps seen).
Qed.

(** What a step among several promises does: nothing when the index is out
    of range, and otherwise it resumes one of them, at an index in its own
    range. *)
Lemma resumeAmong_spec {B} n (ps : list (Promise B)) seen :
  (sum_list_with waiting ps <= n /\ resumeAmong n ps seen = (seen, ps))
  \/ exists i p m,
       ps !! i = Some p /\ m < waiting p
       /\ resumeAmong n ps seen = ((resume m p seen).1, <[i := (resume m p seen).2]> ps).
Proof.
  revert n. induction ps as [|p ps IH]; intros n.
  - left. split; [simpl; lia | reflexivity].
  - rewrite resumeAmong_cons. destruct (n <? waiting p) eqn:E.
    + apply Nat.ltb_lt in E. right. exists 0, p, n. done.
    + apply Nat.ltb_ge in E.
      destruct (IH (n - waiting p)) as [[Hle ->] | (i & q & m & Hi & Hm & ->)].
      * left. split; [simpl; lia | reflexivity].
      * right. exists (S i), q, m. done.
Qed.

Lemma waiting_thenReturn {A C} (f : A -> C) (p : Promise A) :
  waiting (thenReturn f p) = waiting p.
Proof. by destruct p. Qed.

Lemma rejection_Some {A} (p : Promise A) e :
  rejection p = Some e <-> p = Settled (Rejected e).
Proof.
  split; [|by intros ->]. destruct p as [[]| |]; simpl; try discriminate. by intros [= ->].
Qed.

Lemma fulfilment_Some {A} (p : Promise A) a :
  fulfilment p = Some a <-> p = Settled (Fulfilled a).
Proof.
  split; [|by intros ->]. destruct p as [[]| |]; simpl; try discriminate. by intros [= ->].
Qed.

Lemma mapM_fulfilment {B} (ps : list (Promise B)) values :
  mapM fulfilment ps = Some values <-> ps = map (fun v => Settled (Fulfilled v)) values.
Proof.
  rewrite mapM_Some. split.
  - induction 1 as [|p v ps vs Hp _ IH]; [done|]. simpl.
    apply fulfilment_Some in Hp. by subst.
  - intros ->. induction values; constructor; done.
Qed.

(** The three things [allOf] can be. *)
Lemma allOf_cases {A B} (ps : list (Promise B)) (k : list B -> A) :
  (exists e, head (omap rejection ps) = Some e /\ allOf ps k = Settled (Rejected e))
  \/ (omap rejection ps = []
      /\ exists values, ps = map (fun v => Settled (Fulfilled v)) values
                        /\ allOf ps k = Settled (Fulfilled (k values)))
  \/ (omap rejection ps = [] /\ mapM fulfilment ps = None /\ allOf ps k = All ps k).
Proof.
  unfold allOf. destruct (omap rejection ps) as [|e es] eqn:E; simpl.
  - right. destruct (mapM fulfilment ps) as [values|] eqn:M.
    + left. split; [done|]. exists values. split; [by apply mapM_fulfilment | done].
    + right. done.
  - left. by exists e.
Qed.

Lemma thenReturn_allOf {A B C} (f : A -> C) (ps : list (Promise B)) (k : list B -> A) :
  thenReturn f (allOf ps k) = allOf ps (fun bs => f (k bs)).
Proof.
  unfold allOf. destruct (head (omap rejection ps)); [done|].
  by destruct (mapM fulfilment ps).
Qed.

Lemma resume_thenReturn {A C} (f : A -> C) n (p : Promise A) seen :
  resume n (thenReturn f p) seen
  = ((resume n p seen).1, thenReturn f (resume n p seen).2).
Proof.
  destruct p as [o|r|B ps k].
  - reflexivity.
  - simpl. by destruct (r seen).
  - change (thenReturn f (All ps k)) with (All ps (fun bs => f (k bs))).
    rewrite !resume_All. simpl. by rewrite thenReturn_allOf.
Qed.

Lemma run_thenReturn {A C} (f : A -> C) schedule (p : Promise A) seen :
  run schedule (thenReturn f p) seen
  = ((run schedule p seen).1, thenReturn f (run schedule p seen).2).
Proof.
  revert p seen. induction schedule as [|n schedule IH]; intros p seen; [done|].
  simpl. rewrite waiting_thenReturn, resume_thenReturn.
  destruct (resume (n mod waiting p) p seen) as [s' p']. simpl. apply IH.
Qed.

Lemma run_Settled {A} schedule (o : Outcome A) seen :
  run schedule (Settled o) seen = (seen, Settled o).
Proof. induction schedule; simpl; done. Qed.

Lemma run_Pending {A} n schedule (r : SeenRefs -> SeenRefs * Promise A) seen :
  run (n :: schedule) (Pending r) seen = run schedule (r seen).2 (r seen).1.
Proof. simpl. by destruct (r seen). Qed.

Lemma outcome_thenReturn {A C} (f : A -> C) (p : Promise A) :
  outcome (thenReturn f p) = Outcome_map f (outcome p).
Proof. by destruct p. Qed.

(** A settled promise does not change any more, nor does it change the
    visited set. *)
Lemma resume_Settled {A} n (o : Outcome A) seen :
  resume n (Settled o) seen = (seen, Settled o).
Proof. reflexivity. Qed.

Lemma sum_waiting_zero {B} (ps : list (Promise B)) values :
  ps = map (fun v => Settled (Fulfilled v)) values -> sum_list_with waiting ps = 0.
Proof. intros ->. by induction values. Qed.

Lemma resumeAmong_lookup_Settled {B} n (ps : list (Promise B)) seen i o :
  ps !! i = Some (Settled o) -> (resumeAmong n ps seen).2 !! i = Some (Settled o).
Proof.
  intros Hi. destruct (resumeAmong_spec n ps seen) as [[_ ->] | (j & p & m & Hj & Hm & ->)];
    [done|]. simpl.
  destruct (decide (i = j)) as [->|Hne].
  - rewrite Hi in Hj. injection Hj as <-. simpl in Hm. lia.
  - by rewrite list_lookup_insert_ne.
Qed.

Lemma runAll_lookup_Settled {B} schedule (ps : list (Promise B)) seen i o :
  ps !! i = Some (Settled o) -> (runAll schedule ps seen).2 !! i = Some (Settled o).
Proof.
  revert ps seen. induction schedule as [|n schedule IH]; intros ps seen Hi; [done|].
  simpl. destruct (resumeAmong _ ps seen) as [s' ps'] eqn:E.
  apply IH. replace ps' with ((resumeAmong (n mod sum_list_with waiting ps) ps seen).2)
    by (by rewrite E).
  by apply resumeAmong_lookup_Settled.
Qed.

Lemma resumeAmong_length {B} n (ps : list (Promise B)) seen :
  length (resumeAmong n ps seen).2 = length ps.
Proof.
  destruct (resumeAmong_spec n ps seen) as [[_ ->] | (j & p & m & Hj & Hm & ->)]; [done|].
  simpl. by rewrite length_insert.
Qed.

Lemma runAll_length {B} schedule (ps : list (Promise B)) seen :
  length (runAll schedule ps seen).2 = length ps.
Proof.
  revert ps seen. induction schedule as [|n schedule IH]; intros ps seen; [done|].
  simpl. destruct (resumeAmong _ ps seen) as [s' ps'] eqn:E.
  rewrite IH. replace ps' with ((resumeAmong (n mod sum_list_with waiting ps) ps seen).2)
    by (by rewrite E).
  apply resumeAmong_length.
Qed.

Lemma runAll_idle {B} schedule (ps : list (Promise B)) seen :
  sum_list_with waiting ps = 0 -> runAll schedule ps seen = (seen, ps).
Proof.
  intros Hz. induction schedule as [|n schedule IH]; [done|]. simpl.
  destruct (resumeAmong_spec (n mod sum_list_with waiting ps) ps seen)
    as [[_ ->] | (j & p & m & Hj & Hm & _)]; [done|].
  assert (waiting p <= sum_list_with waiting ps); [|lia].
  clear -Hj. revert j Hj. induction ps as [|q ps IH]; intros [|j] Hj; simplify_eq/=; try lia.
  specialize (IH _ Hj). lia.
Qed.

Lemma head_omap_rejection_lookup {B} (ps : list (Promise B)) i e :
  ps !! i = Some (Settled (Rejected e)) -> is_Some (head (omap rejection ps)).
Proof.
  revert i. induction ps as [|p ps IH]; intros [|i] Hi; simplify_eq/=; [by eexists|].
  destruct (rejection p); simpl; [by eexists | eauto].
Qed.

Lemma head_omap_rejection {B} (ps : list (Promise B)) e :
  head (omap rejection ps) = Some e -> exists i, ps !! i = Some (Settled (Rejected e)).
Proof.
  induction ps as [|p ps IH]; [done|]. simpl.
  destruct (rejection p) as [e'|] eqn:E; simpl.
  - intros [= ->]. apply rejection_Some in E as ->. by exists 0.
  - intros H. destruct (IH H) as [i Hi]. by exists (S i).
Qed.

(** [Promise.all] against its promises run on their own: as long as none of
    them is rejected the two agree, and once one is, [Promise.all] is
    rejected. *)
Lemma run_allOf {A B} schedule (ps : list (Promise B)) (k : list B -> A) seen :
  match head (omap rejection (runAll schedule ps seen).2) with
  | Some _ => exists e, (run schedule (allOf ps k) seen).2 = Settled (Rejected e)
  | None => run schedule (allOf ps k) seen
            = ((runAll schedule ps seen).1, allOf (runAll schedule ps seen).2 k)
  end.
Proof.
  revert ps seen. induction schedule as [|n schedule IH]; intros ps seen.
  - simpl. destruct (head (omap rejection ps)) as [e|] eqn:E; [|done].
    exists e. unfold allOf. by rewrite E.
  - destruct (allOf_cases ps k) as [(e & He & Hall) | [(Hno & values & Hps & Hall)
                                                       | (Hno & Hnone & Hall)]].
    + rewrite Hall, run_Settled.
      destruct (head_omap_rejection _ _ He) as [i Hi].
      destruct (head_omap_rejection_lookup _ i e
                  (runAll_lookup_Settled (n :: schedule) ps seen i _ Hi)) as [e' ->].
      by exists e.
    + rewrite Hall, run_Settled.
      rewrite (runAll_idle (n :: schedule) ps seen (sum_waiting_zero _ _ Hps)).
      cbn [fst snd]. by rewrite Hno, Hall.
    + rewrite Hall.
      change (run (n :: schedule) (All ps k) seen)
        with (let '(seen, p) := resume (n mod sum_list_with waiting ps) (All ps k) seen in
              run schedule p seen).
      rewrite resume_All. cbn [runAll].
      destruct (resumeAmong (n mod sum_list_with waiting ps) ps seen) as [s' ps']. simpl.
      apply IH.
Qed.

Lemma outcome_Fulfilled {A} (p : Promise A) a :
  outcome p = Fulfilled a <-> p = Settled (Fulfilled a).
Proof. split; [|by intros ->]. destruct p; simpl; try discriminate. by intros ->. Qed.

Lemma outcome_Rejected {A} (p : Promise A) e :
  outcome p = Rejected e <-> p = Settled (Rejected e).
Proof. split; [|by intros ->]. destruct p; simpl; try discriminate. by intros ->. Qed.

(** ** Awaited calls *)

Lemma awaited_ret {A} schedule (a : A) seen :
  awaited schedule (ret a) seen = (seen, Fulfilled a).
Proof. unfold awaited, ret. by rewrite run_Settled. Qed.

Lemma awaited_throw {A} schedule e seen :
  awaited schedule (@throw A e) seen = (seen, Rejected e).
Proof. unfold awaited, throw. by rewrite run_Settled. Qed.

Lemma awaited_outOfFuel {A} schedule seen :
  awaited schedule (@outOfFuel A) seen = (seen, OutOfFuel).
Proof. unfold awaited, outOfFuel. by rewrite run_Settled. Qed.

Lemma awaited_await {A B} n schedule (answer : Completion A) (k : A -> Async B) seen :
  awaited (n :: schedule) (await answer k) seen
  = match answer with
    | Normal a => awaited schedule (k a) seen
    | Throw e => (seen, Rejected e)
    end.
Proof.
  unfold awaited, await. rewrite run_Pending. destruct answer as [a|e]; simpl.
  - by destruct (k a seen).
  - by rewrite run_Settled.
Qed.

Lemma awaited_await_nil {A B} (answer : Completion A) (k : A -> Async B) seen :
  awaited [] (await answer k) seen = (seen, OutOfFuel).
Proof. reflexivity. Qed.

Lemma awaited_awaitCall {A B} schedule (call : Async A) (f : A -> B) seen :
  awaited schedule (awaitCall call f) seen
  = ((awaited schedule call seen).1, Outcome_map f (awaited schedule call seen).2).
Proof.
  unfold awaited, awaitCall. destruct (call seen) as [s p].
  rewrite run_thenReturn. destruct (run schedule p s) as [s' p']. simpl.
  by rewrite outcome_thenReturn.
Qed.


Lemma omap_rejection_fulfilled {B} (results : list B) :
  omap rejection (map (fun r => Settled (Fulfilled r)) results) = [].
Proof. induction results as [|r rs IH]; [done|]. exact IH. Qed.

Lemma promiseAll_fulfilled {A B C} schedule (call : A -> Async B) items (f : list B -> C)
    seen seen' c :
  awaited schedule (promiseAll call items f) seen = (seen', Fulfilled c) <->
  exists results, settlesAll schedule (map call items) seen results seen' /\ c = f results.
Proof.
  unfold awaited, promiseAll, settlesAll.
  destruct (start (map call items) seen) as [s ps]. simpl.
  pose proof (run_allOf schedule ps f s) as Hrun.
  destruct (run schedule (allOf ps f) s) as [s1 p1].
  destruct (runAll schedule ps s) as [s2 ps2]. simpl in Hrun. split.
  - intros [= <- Hout]. apply outcome_Fulfilled in Hout as ->.
    destruct (head (omap rejection ps2)) as [e|] eqn:E.
    + destruct Hrun as [e' ?]. discriminate.
    + injection Hrun as -> Hall.
      destruct (allOf_cases ps2 f)
        as [(e & He & _) | [(_ & values & -> & Hv) | (_ & _ & Hv)]];
        [congruence | |congruence].
      exists values. split; [done|]. congruence.
  - intros (results & [= -> ->] & ->).
    pose proof (omap_rejection_fulfilled results) as Hno.
    rewrite Hno in Hrun. simpl in Hrun. injection Hrun as -> ->.
    destruct (allOf_cases (map (fun r : B => Settled (Fulfilled r)) results) f)
      as [(e & He & _) | [(_ & values & Hv & ->) | (_ & Hn & _)]].
    + by rewrite Hno in He.
    + simpl. do 2 f_equal. f_equal.
      clear -Hv. revert values Hv. induction results as [|r rs IH]; intros [|v vs] Hv;
        simplify_eq/=; [done|]. f_equal. by apply IH.
    + assert (mapM fulfilment (map (fun r : B => Settled (Fulfilled r)) results)
              = Some results) as Hs by (by apply mapM_fulfilment).
      congruence.
Qed.

Lemma start_length {A} (calls : list (Async A)) seen :
  length (start calls seen).2 = length calls.
Proof.
  revert seen. induction calls as [|call calls IH]; intros seen; [done|]. simpl.
  destruct (call seen) as [s p]. specialize (IH s). destruct (start calls s). simpl in *.
  by rewrite IH.
Qed.

Lemma settlesAll_length {A} schedule (calls : list (Async A)) seen results seen' :
  settlesAll schedule calls seen results seen' -> length results = length calls.
Proof.
  unfold settlesAll. intros H.
  pose proof (runAll_length schedule (start calls seen).2 (start calls seen).1) as Hl.
  rewrite H in Hl. simpl in Hl. rewrite length_map in Hl. by rewrite Hl, start_length.
Qed.

Lemma start_lookup {A} (calls : list (Async A)) seen k (call : Async A) :
  calls !! k = Some call ->
  (start calls seen).2 !! k = Some (call (madeFrom calls seen k)).2.
Proof.
  unfold madeFrom. revert seen k. induction calls as [|c calls IH]; intros seen [|k] Hk;
    simplify_eq/=.
  - destruct (call seen) as [s p]. by destruct (start calls s).
  - destruct (c seen) as [s p]. specialize (IH s k Hk).
    destruct (start calls s) as [s1 ps1]. destruct (start (take k calls) s) as [s2 ps2].
    done.
Qed.

(** A call that is settled as soon as it is made keeps its result. *)
Lemma settlesAll_lookup_settled {A} schedule (calls : list (Async A)) seen results seen'
    k (call : Async A) r :
  settlesAll schedule calls seen results seen' ->
  calls !! k = Some call ->
  (call (madeFrom calls seen k)).2 = Settled (Fulfilled r) ->
  results !! k = Some r.
Proof.
  unfold settlesAll. intros H Hk Hr.
  pose proof (start_lookup calls seen k call Hk) as Hs. rewrite Hr in Hs.
  pose proof (runAll_lookup_Settled schedule _ (start calls seen).1 k _ Hs) as Hf.
  rewrite H in Hf. simpl in Hf. rewrite list_lookup_fmap in Hf.
  destruct (results !! k); simplify_eq/=. done.
Qed.

(** ** What every resumption respects *)

Lemma behaves_rejection {A} b n (p : Promise A) :
  behaves b n p -> b = false -> rejection p = None.
Proof. destruct n; simpl; tauto. Qed.

Lemma behaves_S {A} b n (p : Promise A) : behaves b (S n) p -> behaves b n p.
Proof.
  revert p. induction n as [|n IH]; intros p [Hr Hs]; split; try done.
  intros m s. destruct (Hs m s) as [Hsub Hb]. split; [done|]. by apply IH.
Qed.

Lemma behaves_Settled {A} b n (o : Outcome A) :
  (b = false -> forall e, o <> Rejected e) -> behaves b n (Settled o).
Proof.
  intros Ho. induction n as [|n IH]; (split; [intros Hb; destruct o; simpl; try done;
    by destruct (Ho Hb e) |]); [done|].
  intros m s. split; [done | exact IH].
Qed.

Lemma behaves_Pending {A} b (r : SeenRefs -> SeenRefs * Promise A) :
  (forall s n, s ⊆ (r s).1 /\ behaves b n (r s).2) -> forall n, behaves b n (Pending r).
Proof. intros Hr [|n]; (split; [done|]); [done|]. intros m s. apply Hr. Qed.

Lemma behaves_thenReturn {A C} b n (f : A -> C) (p : Promise A) :
  behaves b n p -> behaves b n (thenReturn f p).
Proof.
  revert p. induction n as [|n IH]; intros p [Hr Hs].
  - split; [|done]. intros Hb. specialize (Hr Hb). by destruct p as [[]| |].
  - split.
    + intros Hb. specialize (Hr Hb). by destruct p as [[]| |].
    + intros m s. rewrite resume_thenReturn. simpl. destruct (Hs m s). split; [done|].
      by apply IH.
Qed.

Lemma omap_rejection_nil {B} (ps : list (Promise B)) :
  omap rejection ps = [] <-> Forall (fun p => rejection p = None) ps.
Proof.
  induction ps as [|p ps IH]; simpl; [by split; [constructor|] |].
  destruct (rejection p) eqn:E.
  - split; [done|]. intros H. apply Forall_cons in H as [? _]. congruence.
  - rewrite IH. split; [by constructor | by intros [? ?]%Forall_cons].
Qed.

Lemma rejection_allOf {A B} (ps : list (Promise B)) (k : list B -> A) :
  Forall (fun p => rejection p = None) ps -> rejection (allOf ps k) = None.
Proof.
  intros H%omap_rejection_nil.
  destruct (allOf_cases ps k) as [(e & He & _) | [(_ & values & _ & ->) | (_ & _ & ->)]];
    [by rewrite H in He | done | done].
Qed.

Lemma behaves_allOf {A B} b n (ps : list (Promise B)) (k : list B -> A) :
  Forall (behaves b n) ps -> behaves b n (allOf ps k).
Proof.
  revert ps. induction n as [|n IH]; intros ps Hps.
  - split; [|done]. intros Hb. apply rejection_allOf.
    eapply Forall_impl; [exact Hps|]. intros p Hp. by apply (behaves_rejection b 0).
  - split.
    + intros Hb. apply rejection_allOf.
      eapply Forall_impl; [exact Hps|]. intros p Hp. by apply (behaves_rejection b (S n)).
    + intros m s.
      destruct (allOf_cases ps k) as [(e & He & ->) | [(_ & values & _ & ->) | (_ & _ & ->)]].
      * simpl. split; [done|]. apply behaves_Settled. intros Hb e' _.
        apply head_omap_rejection in He as [i Hi].
        rewrite Forall_lookup in Hps. specialize (Hps _ _ Hi).
        by pose proof (behaves_rejection _ _ _ Hps Hb).
      * simpl. split; [done|]. by apply behaves_Settled.
      * rewrite resume_All.
        destruct (resumeAmong_spec m ps s) as [[_ ->] | (i & p & m' & Hi & Hm & ->)]; simpl.
        -- split; [done|]. apply IH. eapply Forall_impl; [exact Hps|]. apply behaves_S.
        -- rewrite Forall_lookup in Hps. pose proof (Hps _ _ Hi) as [_ Hp].
           destruct (Hp m' s) as [Hsub Hb']. split; [done|]. apply IH.
           apply Forall_insert; [|done]. apply Forall_lookup. intros j q Hj.
           apply behaves_S. by apply (Hps j).
Qed.

Lemma behaves_run {A} b schedule (p : Promise A) s :
  behaves b (length schedule) p ->
  s ⊆ (run schedule p s).1 /\ (b = false -> rejection (run schedule p s).2 = None).
Proof.
  revert p s. induction schedule as [|n schedule IH]; intros p s Hp.
  - split; [done|]. by apply (behaves_rejection b 0).
  - simpl. destruct Hp as [_ Hp]. destruct (Hp (n mod waiting p) s) as [Hsub Hb].
    destruct (resume (n mod waiting p) p s) as [s' p']. simpl in *.
    destruct (IH p' s' Hb) as [Hsub' Hr]. split; [by transitivity s' | done].
Qed.

Lemma wellBehaved_ret {A} b (a : A) : wellBehaved b (ret a).
Proof. intros s n. split; [done|]. by apply behaves_Settled. Qed.

Lemma wellBehaved_outOfFuel {A} b : wellBehaved b (@outOfFuel A).
Proof. intros s n. split; [done|]. by apply behaves_Settled. Qed.

Lemma wellBehaved_throw {A} e : wellBehaved true (@throw A e).
Proof. intros s n. split; [done|]. by apply behaves_Settled. Qed.

Lemma wellBehaved_await {A B} b (answer : Completion A) (k : A -> Async B) :
  (forall a, answer = Normal a -> wellBehaved b (k a)) ->
  (b = false -> forall e, answer <> Throw e) ->
  wellBehaved b (await answer k).
Proof.
  intros Hk He s n. split; [done|]. apply behaves_Pending. clear s n. intros s n.
  destruct answer as [a|e]; simpl.
  - by apply Hk.
  - split; [done|]. apply behaves_Settled. intros Hb. by destruct (He Hb e).
Qed.

Lemma wellBehaved_awaitCall {A B} b (call : Async A) (f : A -> B) :
  wellBehaved b call -> wellBehaved b (awaitCall call f).
Proof.
  intros Hc s n. unfold awaitCall. specialize (Hc s n). destruct (call s) as [s' p].
  simpl in *. split; [apply Hc|]. apply behaves_thenReturn, Hc.
Qed.

Lemma wellBehaved_start {A} b (calls : list (Async A)) s n :
  Forall (wellBehaved b) calls ->
  s ⊆ (start calls s).1 /\ Forall (behaves b n) (start calls s).2.
Proof.
  intros H. revert s. induction H as [|call calls Hc _ IH]; intros s; [done|]. simpl.
  specialize (Hc s n). destruct (call s) as [s1 p]. specialize (IH s1).
  destruct (start calls s1) as [s2 ps]. simpl in *. split; [by transitivity s1; tauto|].
  constructor; tauto.
Qed.

Lemma wellBehaved_promiseAll {A B C} b (call : A -> Async B) items (f : list B -> C) :
  (forall item, item ∈ items -> wellBehaved b (call item)) ->
  wellBehaved b (promiseAll call items f).
Proof.
  intros Hc s n. unfold promiseAll.
  assert (Forall (wellBehaved b) (map call items)) as Hall.
  { apply Forall_fmap, Forall_forall. intros x Hx. by apply Hc. }
  destruct (wellBehaved_start b _ s n Hall) as [Hsub Hps].
  destruct (start (map call items) s) as [s' ps]. simpl in *. split; [done|].
  by apply behaves_allOf.
Qed.

Lemma wellBehaved_awaited {A} b schedule (call : Async A) s :
  wellBehaved b call ->
  s ⊆ (awaited schedule call s).1
  /\ (b = false -> forall e, (awaited schedule call s).2 <> Rejected e).
Proof.
  intros Hc. unfold awaited. destruct (Hc s (length schedule)) as [Hsub Hb].
  destruct (call s) as [s1 p]. simpl in *.
  destruct (behaves_run b schedule p s1 Hb) as [Hsub' Hr].
  destruct (run schedule p s1) as [s2 p']. simpl in *. split; [by transitivity s1|].
  intros Hfalse e He. apply outcome_Rejected in He. subst p'. by specialize (Hr Hfalse).
Qed.

(** ** Settling within a number of answers *)

Lemma settled_waiting {A} (p : Promise A) : settled p -> waiting p = 0.
Proof. by intros (o & -> & _). Qed.

Lemma within_settled {A} n (p : Promise A) seen : settled p -> within n p seen.
Proof. destruct n; simpl; auto. Qed.

Lemma within_seen {A} n (p : Promise A) seen seen' :
  within n p seen -> seen ⊆ seen' -> within n p seen'.
Proof.
  destruct n as [|n]; simpl; [done|]. intros [H | [Hw H]] Hsub; [by left|]. right.
  split; [done|]. intros m s Hm Hs. apply H; [done | by transitivity seen'].
Qed.

Lemma within_le {A} n n' (p : Promise A) seen :
  within n p seen -> n <= n' -> within n' p seen.
Proof.
  revert n' p seen. induction n as [|n IH]; intros n' p seen H Hle.
  - by apply within_settled.
  - destruct n' as [|n']; [lia|]. destruct H as [H | [Hw H]]; [by left|]. right.
    split; [done|]. intros m s Hm Hs. destruct (H m s Hm Hs) as [Hsub Hn]. split; [done|].
    apply IH; [done | lia].
Qed.

Lemma within_Pending {A} n (r : SeenRefs -> SeenRefs * Promise A) seen :
  (forall s, seen ⊆ s -> s ⊆ (r s).1 /\ within n (r s).2 (r s).1) ->
  within (S n) (Pending r) seen.
Proof. intros H. right. split; [simpl; lia|]. intros m s _ Hs. by apply H. Qed.

Lemma within_thenReturn {A C} n (f : A -> C) (p : Promise A) seen :
  within n p seen -> within n (thenReturn f p) seen.
Proof.
  assert (forall q : Promise A, settled q -> settled (thenReturn f q)) as Hsettled.
  { intros q (o & -> & Ho). exists (Outcome_map f o). split; [done|]. by destruct o. }
  revert p seen. induction n as [|n IH]; intros p seen; simpl; [by apply Hsettled|].
  intros [H | [Hw H]]; [left; by apply Hsettled|]. right.
  rewrite waiting_thenReturn. split; [done|]. intros m s Hm Hs.
  rewrite resume_thenReturn. simpl. destruct (H m s Hm Hs). split; [done|]. by apply IH.
Qed.

Lemma settled_allOf {A B} (ps : list (Promise B)) (k : list B -> A) :
  Forall settled ps -> settled (allOf ps k).
Proof.
  intros Hps.
  destruct (allOf_cases ps k) as [(e & _ & ->) | [(_ & values & _ & ->) | (Hno & Hnone & _)]].
  - by eexists.
  - by eexists.
  - exfalso. assert (is_Some (mapM fulfilment ps)) as [? ?]; [|congruence].
    apply mapM_is_Some. rewrite omap_rejection_nil in Hno.
    rewrite Forall_forall in Hps, Hno. apply Forall_forall. intros p Hp.
    destruct (Hps p Hp) as ([a|e|] & -> & Ho); [by eexists | | done].
    by specialize (Hno _ Hp).
Qed.

Lemma sum_list_lookup_le (ns : list nat) i n : ns !! i = Some n -> n <= sum_list ns.
Proof.
  revert i. induction ns as [|x ns IH]; intros [|i] Hi; simplify_eq/=; [lia|].
  specialize (IH _ Hi). lia.
Qed.

Lemma sum_list_insert (ns : list nat) i n n' :
  ns !! i = Some n -> sum_list (<[i := n']> ns) + n = sum_list ns + n'.
Proof.
  revert i. induction ns as [|x ns IH]; intros [|i] Hi; simplify_eq/=; [lia|].
  specialize (IH _ Hi). lia.
Qed.

Lemma sum_waiting_lookup {B} (ps : list (Promise B)) i p :
  ps !! i = Some p -> waiting p <= sum_list_with waiting ps.
Proof.
  revert i. induction ps as [|q ps IH]; intros [|i] Hi; simplify_eq/=; [lia|].
  specialize (IH _ Hi). lia.
Qed.

(** [Promise.all] is settled once each of its promises had the answers it
    needs. *)
Lemma within_allOf {A B} (ns : list nat) (ps : list (Promise B)) (k : list B -> A) seen :
  Forall2 (fun n p => within n p seen) ns ps ->
  within (sum_list ns) (allOf ps k) seen.
Proof.
  remember (sum_list ns) as total eqn:Ht. revert ns ps seen Ht.
  induction total as [|total IH]; intros ns ps seen Ht Hps.
  - simpl. apply settled_allOf, Forall_lookup. intros i p Hi.
    destruct (Forall2_lookup_r _ _ _ _ _ Hps Hi) as (n & Hn & Hp).
    apply sum_list_lookup_le in Hn. by replace n with 0 in Hp by lia.
  - destruct (allOf_cases ps k) as [(e & _ & E) | [(_ & values & _ & E) | (Hno & Hnone & E)]];
      rewrite E; [left; by eexists | left; by eexists |].
    right.
    assert (exists i n p, ns !! i = Some n /\ ps !! i = Some p /\ ~ settled p)
      as (i0 & n0 & p0 & Hn0 & Hp0 & Hns0).
    { destruct (decide (Forall (fun p => is_Some (fulfilment p)) ps)) as [Hall | Hnot].
      - apply mapM_is_Some in Hall as [? ?]. congruence.
      - apply not_Forall_Exists in Hnot; [|intros p; apply _].
        apply Exists_exists in Hnot as (p & Hin & Hp).
        apply list_elem_of_lookup in Hin as [i Hi].
        destruct (Forall2_lookup_r _ _ _ _ _ Hps Hi) as (n & Hn & _).
        exists i, n, p. split; [done|]. split; [done|].
        intros ([a|e|] & -> & Ho); [by apply Hp; eexists | | done].
        rewrite omap_rejection_nil, Forall_lookup in Hno. by specialize (Hno _ _ Hi). }
    assert (0 < waiting p0) as Hw0.
    { pose proof (Forall2_lookup_lr _ _ _ _ _ _ Hps Hn0 Hp0) as H0.
      destruct n0; simpl in H0; [done|]. destruct H0 as [? | [? _]]; done. }
    split.
    { simpl. pose proof (sum_waiting_lookup ps i0 p0 Hp0). lia. }
    intros m s Hm Hs. rewrite resume_All.
    destruct (resumeAmong_spec m ps s) as [[Hle _] | (i & p & m' & Hi & Hm' & ->)];
      [simpl in Hm; lia|]. simpl.
    destruct (Forall2_lookup_r _ _ _ _ _ Hps Hi) as (n & Hn & Hp).
    destruct n as [|n]; [apply settled_waiting in Hp; lia|].
    destruct Hp as [Hp%settled_waiting | [_ Hp]]; [lia|].
    destruct (Hp m' s Hm' Hs) as [Hsub Hp']. split; [done|].
    apply (IH (<[i := n]> ns)).
    + pose proof (sum_list_insert ns i (S n) n Hn). lia.
    + apply Forall2_insert; [|done].
      eapply Forall2_impl; [exact Hps|]. intros n1 p1 H1. eapply within_seen; [exact H1|].
      by transitivity s.
Qed.

Lemma within_run {A} n schedule (p : Promise A) seen :
  within n p seen -> n <= length schedule -> settled (run schedule p seen).2.
Proof.
  revert n p seen. induction schedule as [|c schedule IH]; intros n p seen Hp Hle.
  - destruct n; [done | simpl in Hle; lia].
  - destruct n as [|n].
    + destruct Hp as (o & -> & Ho). rewrite run_Settled. by eexists.
    + destruct Hp as [(o & -> & Ho) | [Hw Hp]]; [rewrite run_Settled; by eexists|].
      simpl. assert (c mod waiting p < waiting p) as Hm by (apply Nat.mod_upper_bound; lia).
      destruct (Hp _ seen Hm ltac:(done)) as [Hsub Hn].
      destruct (resume (c mod waiting p) p seen) as [s' p']. simpl in *.
      apply (IH n); [done | lia].
Qed.

(** ** Schedules *)

Lemma run_app {A} schedule1 schedule2 (p : Promise A) seen :
  run (schedule1 ++ schedule2) p seen
  = run schedule2 (run schedule1 p seen).2 (run schedule1 p seen).1.
Proof.
  revert p seen. induction schedule1 as [|n schedule1 IH]; intros p seen; [done|].
  simpl. destruct (resume (n mod waiting p) p seen) as [s' p']. apply IH.
Qed.

(** Once a call is fulfilled or rejected, later answers change nothing. *)
Lemma awaited_extend {A} schedule1 schedule2 (call : Async A) seen seen' o :
  awaited schedule1 call seen = (seen', o) -> o <> OutOfFuel ->
  awaited (schedule1 ++ schedule2) call seen = (seen', o).
Proof.
  unfold awaited. destruct (call seen) as [s p]. rewrite run_app.
  destruct (run schedule1 p s) as [s1 p1]. simpl. intros [= <- <-] Ho.
  destruct p1 as [o| |]; try done. by rewrite run_Settled.
Qed.

(** Calls that are all fulfilled as soon as they are made. *)
Lemma settlesAll_at_once {A} schedule (calls : list (Async A)) seen results seen' :
  start calls seen = (seen', map (fun result => Settled (Fulfilled result)) results) ->
  settlesAll schedule calls seen results seen'.
Proof.
  unfold settlesAll. intros ->. simpl. apply runAll_idle. by eapply sum_waiting_zero.
Qed.

Lemma settlesAll_nil {A} schedule seen : settlesAll schedule (@nil (Async A)) seen [] seen.
Proof. by apply settlesAll_at_once. Qed.

Lemma settlesAll_nil_inv {A} schedule seen (results : list A) seen' :
  settlesAll schedule [] seen results seen' -> results = [] /\ seen' = seen.
Proof.
  unfold settlesAll. simpl. rewrite (runAll_idle schedule [] seen eq_refl).
  intros [= <- H]. by destruct results.
Qed.

Lemma start_app {A} (calls1 calls2 : list (Async A)) seen :
  (start (calls1 ++ calls2) seen).1 = (start calls2 (start calls1 seen).1).1.
Proof.
  revert seen. induction calls1 as [|call calls1 IH]; intros seen; [done|]. simpl.
  destruct (call seen) as [s p]. specialize (IH s).
  destruct (start (calls1 ++ calls2) s), (start calls1 s). simpl in *. rewrite IH.
  by destruct (start calls2 _).
Qed.

(** Each call is made from the visited set its predecessor left. *)
Lemma madeFrom_0 {A} (calls : list (Async A)) seen : madeFrom calls seen 0 = seen.
Proof. unfold madeFrom. by rewrite take_0. Qed.

Lemma madeFrom_S {A} (calls : list (Async A)) seen k (call : Async A) :
  calls !! k = Some call ->
  madeFrom calls seen (S k) = (call (madeFrom calls seen k)).1.
Proof.
  intros Hk. unfold madeFrom. rewrite (take_S_r _ _ _ Hk), start_app. simpl.
  by destruct (call _).
Qed.

Lemma madeFrom_le {A} (calls : list (Async A)) seen j k :
  (forall call t, call ∈ calls -> t ⊆ (call t).1) ->
  j <= k -> madeFrom calls seen j ⊆ madeFrom calls seen k.
Proof.
  intros Hg. induction 1 as [|k Hle IH]; [done|].
  destruct (calls !! k) as [call|] eqn:E.
  - rewrite (madeFrom_S _ _ _ _ E). etransitivity; [exact IH|].
    apply Hg. by eapply list_elem_of_lookup_2.
  - unfold madeFrom in *. apply lookup_ge_None in E.
    rewrite (take_ge calls (S k)) by lia. by rewrite (take_ge calls k) in IH by lia.
Qed.

(** A call that is not fulfilled when it is made, and waits for nothing,
    keeps the calls from being fulfilled all. *)
Lemma settlesAll_lookup {A} schedule (calls : list (Async A)) seen results seen' k
    (call : Async A) :
  settlesAll schedule calls seen results seen' ->
  calls !! k = Some call ->
  exists r, results !! k = Some r
            /\ forall o, (call (madeFrom calls seen k)).2 = Settled o -> o = Fulfilled r.
Proof.
  unfold settlesAll. intros H Hk.
  pose proof (start_lookup calls seen k call Hk) as Hs.
  pose proof (settlesAll_length schedule calls seen results seen' H) as Hlen.
  destruct (results !! k) as [r|] eqn:Hr.
  2:{ apply lookup_ge_None in Hr. apply lookup_lt_Some in Hk. lia. }
  exists r. split; [done|]. intros o Ho. rewrite Ho in Hs.
  pose proof (runAll_lookup_Settled schedule _ (start calls seen).1 k _ Hs) as Hf.
  rewrite H in Hf. simpl in Hf. rewrite list_lookup_fmap, Hr in Hf. by simplify_eq/=.
Qed.

(** ** Promises that never settle *)

Lemma pends_outcome {A} n (p : Promise A) : pends n p -> outcome p = OutOfFuel.
Proof. destruct n; simpl; tauto. Qed.

Lemma pends_OutOfFuel {A} n : pends n (@Settled A OutOfFuel).
Proof. induction n as [|n IH]; (split; [done|]); [done|]. intros m s. exact IH. Qed.

Lemma pends_Pending {A} (r : SeenRefs -> SeenRefs * Promise A) :
  (forall s n, pends n (r s).2) -> forall n, pends n (Pending r).
Proof. intros Hr [|n]; (split; [done|]); [done|]. intros m s. apply Hr. Qed.

Lemma pends_thenReturn {A C} n (f : A -> C) (p : Promise A) :
  pends n p -> pends n (thenReturn f p).
Proof.
  revert p. induction n as [|n IH]; intros p [Ho Hs].
  - split; [|done]. by rewrite outcome_thenReturn, Ho.
  - split; [by rewrite outcome_thenReturn, Ho|].
    intros m s. rewrite resume_thenReturn. simpl. apply IH, Hs.
Qed.

Lemma allOf_pending {A B} (p : Promise B) (k : list B -> A) :
  outcome p = OutOfFuel -> allOf [p] k = All [p] k.
Proof. by destruct p as [[]| |]. Qed.

Lemma pends_S {A} n (p : Promise A) : pends (S n) p -> pends n p.
Proof.
  revert p. induction n as [|n IH]; intros p [Ho Hs]; (split; [done|]); [done|].
  intros m s. apply IH, Hs.
Qed.

(** Awaiting a single promise that never settles never settles. *)
Lemma pends_allOf {A B} n (p : Promise B) (k : list B -> A) :
  pends n p -> pends n (allOf [p] k).
Proof.
  revert p. induction n as [|n IH]; intros p Hp.
  - rewrite allOf_pending by (by eapply pends_outcome). done.
  - rewrite allOf_pending by (by eapply pends_outcome). split; [done|].
    intros m s. rewrite resume_All, resumeAmong_cons.
    destruct (m <? waiting p); simpl.
    + apply IH, Hp.
    + by apply IH, pends_S.
Qed.

Lemma pends_run {A} schedule (p : Promise A) s :
  pends (length schedule) p -> outcome (run schedule p s).2 = OutOfFuel.
Proof.
  revert p s. induction schedule as [|n schedule IH]; intros p s Hp.
  - by apply (pends_outcome 0).
  - simpl. destruct Hp as [_ Hp]. specialize (Hp (n mod waiting p) s).
    destruct (resume (n mod waiting p) p s) as [s' p']. by apply IH.
Qed.

(** *** The properties of an object against its children *)

Lemma localizable_cons_info c children :
  localizable (Localized c :: children) = c :: localizable children.
Proof. reflexivity. Qed.

Lemma localizable_cons_error e children :
  localizable (LocalizeError e :: children) = localizable children.
Proof. reflexivity. Qed.

Lemma shadows_waiting cs ps qs :
  shadows cs ps qs -> sum_list_with waiting ps = sum_list_with waiting qs.
Proof.
  induction 1 as [|e cs ps qs _ IH|c cs q ps qs _ IH]; simpl; [done | done |].
  by rewrite waiting_thenReturn, IH.
Qed.

Lemma shadows_resumeAmong cs ps qs n seen :
  shadows cs ps qs ->
  (resumeAmong n ps seen).1 = (resumeAmong n qs seen).1
  /\ shadows cs (resumeAmong n ps seen).2 (resumeAmong n qs seen).2.
Proof.
  intros H. revert n. induction H as [|e cs ps qs H IH|c cs q ps qs H IH]; intros n.
  - split; [done | constructor].
  - rewrite resumeAmong_cons. simpl. rewrite Nat.sub_0_r.
    destruct (IH n) as [Hs Hsh]. split; [done|]. by constructor.
  - rewrite !resumeAmong_cons, waiting_thenReturn. destruct (n <? waiting q).
    + rewrite resume_thenReturn. simpl. split; [done|]. by constructor.
    + simpl. destruct (IH (n - waiting q)) as [Hs Hsh]. split; [done|]. by constructor.
Qed.

Lemma shadows_runAll cs ps qs schedule seen :
  shadows cs ps qs ->
  (runAll schedule ps seen).1 = (runAll schedule qs seen).1
  /\ shadows cs (runAll schedule ps seen).2 (runAll schedule qs seen).2.
Proof.
  revert ps qs seen. induction schedule as [|n schedule IH]; intros ps qs seen H; [done|].
  simpl. rewrite (shadows_waiting _ _ _ H).
  destruct (shadows_resumeAmong cs ps qs (n mod sum_list_with waiting qs) seen H)
    as [Hs Hsh].
  destruct (resumeAmong _ ps seen) as [s1 ps1], (resumeAmong _ qs seen) as [s2 qs2].
  simpl in *. subst s2. by apply IH.
Qed.

Lemma shadows_start (f : LocalizedTypeInfo -> Async string) cs seen :
  (start (map (flattenProperty f) cs) seen).1 = (start (map f (localizable cs)) seen).1
  /\ shadows cs (start (map (flattenProperty f) cs) seen).2
       (start (map f (localizable cs)) seen).2.
Proof.
  revert seen. induction cs as [|[c|e] cs IH]; intros seen.
  - split; [done | constructor].
  - rewrite localizable_cons_info. cbn [map start flattenProperty]. unfold awaitCall.
    destruct (f c seen) as [s q]. destruct (IH s) as [Hs Hsh].
    destruct (start (map (flattenProperty f) cs) s) as [s1 ps1],
      (start (map f (localizable cs)) s) as [s2 qs2]. simpl in *. split; [done|].
    by apply (shadows_info c cs q ps1 qs2).
  - rewrite localizable_cons_error. cbn [map start flattenProperty]. unfold ret.
    destruct (IH seen) as [Hs Hsh].
    destruct (start (map (flattenProperty f) cs) seen) as [s1 ps1],
      (start (map f (localizable cs)) seen) as [s2 qs2]. simpl in *. split; [done|].
    by constructor.
Qed.

Lemma shadows_fulfilled cs ps qs :
  shadows cs ps qs ->
  (forall properties,
      ps = map (fun r => Settled (Fulfilled r)) properties ->
      exists types,
        qs = map (fun r => Settled (Fulfilled r)) types
        /\ omap id properties = zip_with propertyEntry (localizable cs) types)
  /\ (forall types,
         qs = map (fun r => Settled (Fulfilled r)) types ->
         exists properties,
           ps = map (fun r => Settled (Fulfilled r)) properties
           /\ omap id properties = zip_with propertyEntry (localizable cs) types).
Proof.
  induction 1 as [|e cs ps qs _ [IH1 IH2]|c cs q ps qs _ [IH1 IH2]].
  - split.
    + intros [|? ?] [=]. by exists [].
    + intros [|? ?] [=]. by exists [].
  - split.
    + intros [|p properties] [= Hp Hps]. destruct (IH1 _ Hps) as (types & -> & Hz).
      exists types. split; [done|]. by destruct p.
    + intros types Hq. destruct (IH2 _ Hq) as (properties & -> & Hz).
      by exists (None :: properties).
  - split.
    + intros [|p properties] [= Hp Hps]. destruct (IH1 _ Hps) as (types & -> & Hz).
      destruct q as [[t|?|]| |]; simplify_eq/=.
      exists (t :: types). split; [done|]. simpl. by f_equal.
    + intros [|t types] [= -> Hq]. destruct (IH2 _ Hq) as (properties & -> & Hz).
      exists (Some (propertyEntry c t) :: properties). split; [done|]. simpl.
      by f_equal.
Qed.

(** The property callbacks are all fulfilled exactly when the calls for the
    children that are nodes are, and their entries are then those of these
    children. *)
Lemma settlesAll_flattenProperty schedule (f : LocalizedTypeInfo -> Async string)
    cs seen seen' :
  (forall properties,
      settlesAll schedule (map (flattenProperty f) cs) seen properties seen' ->
      exists types,
        settlesAll schedule (map f (localizable cs)) seen types seen'
        /\ omap id properties = zip_with propertyEntry (localizable cs) types)
  /\ (forall types,
         settlesAll schedule (map f (localizable cs)) seen types seen' ->
         exists properties,
           settlesAll schedule (map (flattenProperty f) cs) seen properties seen'
           /\ omap id properties = zip_with propertyEntry (localizable cs) types).
Proof.
  unfold settlesAll. destruct (shadows_start f cs seen) as [Hs Hsh]. rewrite Hs.
  destruct (shadows_runAll _ _ _ schedule (start (map f (localizable cs)) seen).1 Hsh)
    as [Hs' Hsh'].
  destruct (shadows_fulfilled _ _ _ Hsh') as [H1 H2].
  destruct (runAll schedule (start (map (flattenProperty f) cs) seen).2 _) as [s1 ps1].
  destruct (runAll schedule (start (map f (localizable cs)) seen).2 _) as [s2 qs2].
  simpl in *. subst s2. split.
  - intros properties [= -> ->]. destruct (H1 _ eq_refl) as (types & -> & Hz). by exists types.
  - intros types [= -> ->]. destruct (H2 _ eq_refl) as (properties & -> & Hz).
    by exists properties.
Qed.

(** ** The flattener, case by case *)

Lemma revisits_spec id (seen : SeenRefs) :
  revisits id seen = true <-> exists i, id = Some i /\ nonempty i = true /\ i ∈ seen.
Proof.
  unfold revisits. destruct id as [i|].
  - rewrite andb_true_iff, bool_decide_eq_true. split.
    + intros [Hne Hin]. by exists i.
    + by intros (j & [= <-] & Hne & Hin).
  - split; [done | by intros (j & [=] & _)].
Qed.

Lemma enter_subseteq id (seen : SeenRefs) : seen ⊆ enter id seen.
Proof.
  unfold enter. destruct id as [i|]; [destruct (nonempty i)|]; try done.
  apply union_subseteq_r.
Qed.

Lemma revisits_empty id : revisits id ∅ = false.
Proof.
  destruct (revisits id ∅) eqn:E; [|done].
  apply revisits_spec in E as (i & _ & _ & Hin). by apply not_elem_of_empty in Hin.
Qed.

Lemma revisits_fresh i (seen : SeenRefs) : i ∉ seen -> revisits (Some i) seen = false.
Proof.
  intros Hfresh. destruct (revisits (Some i) seen) eqn:E; [|done].
  apply revisits_spec in E as (j & [= <-] & _ & Hin). done.
Qed.

Section FlattenFacts.

Variable getTypeTreeAtLocation : option SourceFileLocation -> Completion (option TypeInfo).

Lemma flatten_revisit fuel info resolver (seen : SeenRefs) :
  revisits (_id info) seen = true ->
  generateFlattenedTypeDefinition getTypeTreeAtLocation (S fuel) info resolver seen
  = (seen, Settled (Fulfilled "any // Circular reference")).
Proof. intros Hr. simpl. by rewrite Hr. Qed.

Lemma flatten_primitive fuel info resolver (seen : SeenRefs) :
  revisits (_id info) seen = false -> kind info = Some "primitive" ->
  generateFlattenedTypeDefinition getTypeTreeAtLocation (S fuel) info resolver seen
  = (enter (_id info) seen, Settled (Fulfilled (primitiveKind info ?? "any"))).
Proof. intros Hr Hk. enter_kind Hr Hk. reflexivity. Qed.

Lemma flatten_string_literal fuel info resolver (seen : SeenRefs) :
  revisits (_id info) seen = false -> kind info = Some "string_literal" ->
  generateFlattenedTypeDefinition getTypeTreeAtLocation (S fuel) info resolver seen
  = (enter (_id info) seen,
     Settled (Fulfilled (dquote +:+ ToString (value info) +:+ dquote))).
Proof. intros Hr Hk. enter_kind Hr Hk. reflexivity. Qed.

Lemma flatten_number_literal fuel info resolver (seen : SeenRefs) :
  revisits (_id info) seen = false -> kind info = Some "number_literal" ->
  generateFlattenedTypeDefinition getTypeTreeAtLocation (S fuel) info resolver seen
  = completes (toString (value info)) (enter (_id info) seen).
Proof. intros Hr Hk. enter_kind Hr Hk. reflexivity. Qed.

Lemma flatten_boolean_literal fuel info resolver (seen : SeenRefs) :
  revisits (_id info) seen = false -> kind info = Some "boolean_literal" ->
  generateFlattenedTypeDefinition getTypeTreeAtLocation (S fuel) info resolver seen
  = completes (toString (value info)) (enter (_id info) seen).
Proof. intros Hr Hk. enter_kind Hr Hk. reflexivity. Qed.

Lemma flatten_object fuel info resolver (seen : SeenRefs) :
  revisits (_id info) seen = false -> kind info = Some "object" ->
  generateFlattenedTypeDefinition getTypeTreeAtLocation (S fuel) info resolver seen
  = await (localizeChildren resolver info)
      (fun children =>
         if (length children =? 0)%nat then ret "{}" else
         promiseAll
           (flattenProperty
              (fun child =>
                 generateFlattenedTypeDefinition getTypeTreeAtLocation fuel child resolver))
           children
           (fun properties => "{ " +:+ join "; " (omap id properties) +:+ " }"))
      (enter (_id info) seen).
Proof. intros Hr Hk. enter_kind Hr Hk. reflexivity. Qed.

Lemma flatten_array fuel info resolver (seen : SeenRefs) :
  revisits (_id info) seen = false -> kind info = Some "array" ->
  generateFlattenedTypeDefinition getTypeTreeAtLocation (S fuel) info resolver seen
  = await (localizeChildren resolver info)
      (fun children =>
         match children with
         | [] => ret "any[]"
         | child :: _ =>
             awaitCall
               (generateFlattenedTypeDefinition getTypeTreeAtLocation fuel (asInfo child)
                  resolver)
               (fun elementType => elementType +:+ "[]")
         end)
      (enter (_id info) seen).
Proof. intros Hr Hk. enter_kind Hr Hk. reflexivity. Qed.

Lemma flatten_tuple fuel info resolver (seen : SeenRefs) :
  revisits (_id info) seen = false -> kind info = Some "tuple" ->
  generateFlattenedTypeDefinition getTypeTreeAtLocation (S fuel) info resolver seen
  = await (localizeChildren resolver info)
      (fun children =>
         promiseAll
           (fun child =>
              generateFlattenedTypeDefinition getTypeTreeAtLocation fuel (asInfo child)
                resolver)
           children (fun types => "[" +:+ join ", " types +:+ "]"))
      (enter (_id info) seen).
Proof. intros Hr Hk. enter_kind Hr Hk. reflexivity. Qed.



(** A reference node without a [location] property falls through all the
    cases. *)
Lemma flatten_reference_without_location fuel info resolver (seen : SeenRefs) :
  revisits (_id info) seen = false -> kind info = Some "reference" ->
  location info = None ->
  generateFlattenedTypeDefinition getTypeTreeAtLocation (S fuel) info resolver seen
  = (enter (_id info) seen, Settled (Fulfilled "any")).
Proof. intros Hr Hk Hl. enter_kind Hr Hk. rewrite Hl. reflexivity. Qed.

Lemma flatten_reference_with_location fuel info resolver (seen : SeenRefs) loc :
  revisits (_id info) seen = false -> kind info = Some "reference" ->
  location info = Some loc ->
  generateFlattenedTypeDefinition getTypeTreeAtLocation (S fuel) info resolver seen
  = match locations info with
    | None => throw (TypeError "Cannot read properties of undefined (reading '0')")
    | Some locs =>
        await (getTypeTreeAtLocation (head locs))
          (fun tree =>
             await (localize resolver tree)
               (fun resolvedTypeInfo =>
                  match resolvedTypeInfo with
                  | Some resolved =>
                      generateFlattenedTypeDefinition getTypeTreeAtLocation fuel resolved
                        resolver
                  | None => ret "any // Failed to resolve reference"
                  end))
    end (enter (_id info) seen).
Proof. intros Hr Hk Hl. enter_kind Hr Hk. rewrite Hl. reflexivity. Qed.

Lemma flatten_unhandled fuel info resolver (seen : SeenRefs) :
  revisits (_id info) seen = false ->
  one_of (kind info) handledKinds = false ->
  generateFlattenedTypeDefinition getTypeTreeAtLocation (S fuel) info resolver seen
  = (enter (_id info) seen, Settled (Fulfilled "any")).
Proof.
  intros Hr Hk. simpl. rewrite Hr. unfold kind_is.
  assert (forall k, k ∈ handledKinds -> bool_decide (kind info = Some k) = false) as Hno.
  { intros k Hin. apply bool_decide_eq_false_2. intros Heq. rewrite Heq in Hk.
    simpl in Hk. by apply bool_decide_eq_false in Hk. }
  rewrite !Hno by (unfold handledKinds; set_solver). reflexivity.
Qed.

Lemma flatten_noInfo fuel resolver (seen : SeenRefs) :
  generateFlattenedTypeDefinition getTypeTreeAtLocation (S fuel) noInfo resolver seen
  = (seen, Settled (Fulfilled "any")).
Proof. reflexivity. Qed.

(** *** The visited set only grows, and rejections come from outside *)

Lemma wellBehaved_completes {A} b (c : Completion A) :
  (b = false -> forall e, c <> Throw e) -> wellBehaved b (completes c).
Proof.
  intros Hc. destruct c as [a|e]; simpl; [apply wellBehaved_ret|].
  destruct b; [apply wellBehaved_throw|]. by destruct (Hc eq_refl e).
Qed.

Lemma wellBehaved_flattenProperty b f child :
  (forall c, child = Localized c -> wellBehaved b (f c)) ->
  wellBehaved b (flattenProperty f child).
Proof.
  intros Hf. destruct child as [c|e]; simpl.
  - apply wellBehaved_awaitCall. by apply Hf.
  - apply wellBehaved_ret.
Qed.

Lemma toString_literal info :
  readable info ->
  one_of (kind info) ["number_literal"; "boolean_literal"] = true ->
  forall e, toString (value info) <> Throw e.
Proof.
  intros [Hv _] Hk e. destruct (Hv Hk) as [Hu Hn].
  by destruct (value info).
Qed.

(** With [mayReject = false]: when no call into the resolver or the
    language server throws and the nodes carry what is read from them, no
    promise of the flattener is ever rejected. With [mayReject = true]: its
    calls only add to the visited set. *)
Lemma flatten_wellBehaved b resolver fuel info :
  (b = false -> dependable getTypeTreeAtLocation resolver /\ readable info) ->
  wellBehaved b (generateFlattenedTypeDefinition getTypeTreeAtLocation fuel info resolver).
Proof.
  revert info. induction fuel as [|fuel IH]; intros info Hb; [apply wellBehaved_outOfFuel|].
  assert (b = false -> forall children child,
             localizeChildren resolver info = Normal children ->
             child ∈ children -> readable (asInfo child)) as Hkid.
  { intros Hf children [c|e] Hc Hin; simpl.
    - destruct (Hb Hf) as [(_ & _ & _ & Hr & _) _]. eauto.
    - split; [done|]. by intros [? ?]. }
  assert (forall (body : Async string), wellBehaved b body ->
            forall s n, s ⊆ (body (enter (_id info) s)).1
                        /\ behaves b n (body (enter (_id info) s)).2) as Hentered.
  { intros body Hbody s n. destruct (Hbody (enter (_id info) s) n) as [Hsub Hbeh].
    split; [|done]. transitivity (enter (_id info) s); [apply enter_subseteq | done]. }
  intros s n. cbn [generateFlattenedTypeDefinition].
  destruct (revisits (_id info) s); [by apply wellBehaved_ret|].
  apply Hentered. clear s n.
  repeat case_match; try apply wellBehaved_ret.
  - apply wellBehaved_await.
    + intros tree _. apply wellBehaved_await.
      * intros [resolved|] Hres; [|apply wellBehaved_ret]. apply IH. intros Hf.
        destruct (Hb Hf) as [Hdep _]. split; [done|].
        destruct Hdep as (_ & _ & _ & _ & Hr). eauto.
      * intros Hf e He. destruct (Hb Hf) as [(_ & Hl & _) _].
        destruct (Hl tree) as [r Hr]. congruence.
    + intros Hf e He. destruct (Hb Hf) as [(Hg & _) _].
      destruct (Hg (head l)) as [t Ht]. congruence.
  - destruct b; [apply wellBehaved_throw|]. exfalso.
    destruct (Hb eq_refl) as [_ [_ Hloc]].
    match goal with H : _ && _ = true |- _ => apply andb_true_iff in H as [_ H];
      apply bool_decide_eq_true in H; apply Hloc in H as [? ?]; congruence end.
  - apply wellBehaved_await.
    + intros children Hc. case_match; [apply wellBehaved_ret|].
      apply wellBehaved_promiseAll. intros child Hin.
      apply wellBehaved_flattenProperty. intros c ->. apply IH. intros Hf.
      destruct (Hb Hf) as [Hdep _]. split; [done|]. by apply (Hkid Hf children (Localized c)).
    + intros Hf e He. destruct (Hb Hf) as [(_ & _ & Hl & _) _].
      destruct (Hl info) as [r Hr]. congruence.
  - apply wellBehaved_await.
    + intros [|child children] Hc; [apply wellBehaved_ret|].
      apply wellBehaved_awaitCall, IH. intros Hf.
      destruct (Hb Hf) as [Hdep _]. split; [done|].
      apply (Hkid Hf (child :: children)); [done | left].
    + intros Hf e He. destruct (Hb Hf) as [(_ & _ & Hl & _) _].
      destruct (Hl info) as [r Hr]. congruence.
  - apply wellBehaved_await.
    + intros children Hc. apply wellBehaved_promiseAll. intros child Hin.
      apply IH. intros Hf. destruct (Hb Hf) as [Hdep _]. split; [done|]. eauto.
    + intros Hf e He. destruct (Hb Hf) as [(_ & _ & Hl & _) _].
      destruct (Hl info) as [r Hr]. congruence.
  - apply wellBehaved_await.
    + intros children Hc. apply wellBehaved_promiseAll. intros child Hin.
      apply IH. intros Hf. destruct (Hb Hf) as [Hdep _]. split; [done|]. eauto.
    + intros Hf e He. destruct (Hb Hf) as [(_ & _ & Hl & _) _].
      destruct (Hl info) as [r Hr]. congruence.
  - apply wellBehaved_await.
    + intros children Hc. apply wellBehaved_promiseAll. intros child Hin.
      apply IH. intros Hf. destruct (Hb Hf) as [Hdep _]. split; [done|]. eauto.
    + intros Hf e He. destruct (Hb Hf) as [(_ & _ & Hl & _) _].
      destruct (Hl info) as [r Hr]. congruence.
  - apply wellBehaved_completes. intros Hf. destruct (Hb Hf) as [_ Hread].
    apply toString_literal; [done|].
    match goal with H : kind_is info "number_literal" = true |- _ =>
      unfold kind_is in H; apply bool_decide_eq_true in H; rewrite H end.
    by vm_compute.
  - apply wellBehaved_completes. intros Hf. destruct (Hb Hf) as [_ Hread].
    apply toString_literal; [done|].
    match goal with H : kind_is info "boolean_literal" = true |- _ =>
      unfold kind_is in H; apply bool_decide_eq_true in H; rewrite H end.
    by vm_compute.
Qed.

(** The visited set when a call returns its promise. *)
Lemma flatten_made fuel info resolver (seen : SeenRefs) :
  (generateFlattenedTypeDefinition getTypeTreeAtLocation (S fuel) info resolver seen).1
  = if revisits (_id info) seen then seen else enter (_id info) seen.
Proof.
  cbn [generateFlattenedTypeDefinition]. destruct (revisits (_id info) seen); [done|].
  unfold completes. repeat case_match; reflexivity.
Qed.

(** *** Termination: every node that is entered takes an identifier *)

Lemma size_unvisited_enter (ids seen : gset string) i :
  i ∈ ids -> i ∉ seen -> size (ids ∖ ({[ i ]} ∪ seen)) < size (ids ∖ seen).
Proof.
  intros Hi Hn. apply subset_size. split.
  - intros x. rewrite !elem_of_difference, elem_of_union. tauto.
  - intros Hsub. specialize (Hsub i).
    rewrite !elem_of_difference, elem_of_union, elem_of_singleton in Hsub. tauto.
Qed.

Lemma size_unvisited_mono (ids seen seen' : gset string) :
  seen ⊆ seen' -> size (ids ∖ seen') <= size (ids ∖ seen).
Proof.
  intros Hsub. apply subseteq_size. intros x. rewrite !elem_of_difference.
  intros [Hx Hn]. split; [done|]. intros Hin. apply Hn, Hsub, Hin.
Qed.

Lemma enoughAnswers_mono u u' : u <= u' -> enoughAnswers u <= enoughAnswers u'.
Proof.
  induction 1 as [|u' _ IH]; [done|]. etransitivity; [exact IH|].
  destruct u' as [|u']; simpl; [lia|]. nia.
Qed.

Lemma enoughAnswers_below u u' : u <= u' -> enoughAnswers u <= u' * enoughAnswers u'.
Proof.
  intros Hle. destruct u as [|u]; [simpl; lia|].
  pose proof (enoughAnswers_mono _ _ Hle). destruct u' as [|u']; [lia|]. nia.
Qed.

Lemma takes_within {A} ids budget (call : Async A) seen :
  takes ids budget call seen -> within budget (call seen).2 (call seen).1.
Proof. intros [_ [[_ H] | [_ H]]]; [by apply within_settled | done]. Qed.

Lemma takes_awaitCall {A B} ids budget (call : Async A) (f : A -> B) seen :
  takes ids budget call seen -> takes ids budget (awaitCall call f) seen.
Proof.
  unfold takes, awaitCall. destruct (call seen) as [s p]. simpl.
  intros [Hsub [[-> (o & -> & Ho)] | [Hlt Hw]]]; (split; [done|]).
  - left. split; [done|]. exists (Outcome_map f o). split; [done|]. by destruct o.
  - right. split; [done|]. by apply within_thenReturn.
Qed.

Lemma takes_ret {A} ids budget (a : A) seen : takes ids budget (ret a) seen.
Proof. split; [done|]. left. split; [done|]. by eexists. Qed.

(** The calls that [items.map(call)] makes need, together, the budget of
    one call for each identifier they take. *)
Lemma start_takes {A} ids budget (calls : list (Async A)) seen :
  (forall call t, call ∈ calls -> seen ⊆ t -> takes ids budget call t) ->
  seen ⊆ (start calls seen).1
  /\ exists ns,
       Forall2 (fun n p => within n p (start calls seen).1) ns (start calls seen).2
       /\ sum_list ns + size (ids ∖ (start calls seen).1) * budget
          <= size (ids ∖ seen) * budget.
Proof.
  revert seen. induction calls as [|call calls IH]; intros seen Hcalls.
  - split; [done|]. exists []. split; [constructor | simpl; lia].
  - simpl. destruct (Hcalls call seen ltac:(left) ltac:(done)) as [Hsub Hcall].
    destruct (call seen) as [s1 p] eqn:E. simpl in *.
    destruct (IH s1) as [Hsub' (ns & Hns & Hsum)].
    { intros c t Hc Ht. apply Hcalls; [by right | by transitivity s1]. }
    destruct (start calls s1) as [s2 ps]. simpl in *.
    split; [by transitivity s1|].
    destruct Hcall as [[-> Hp] | [Hlt Hp]].
    + exists (0 :: ns). split; [constructor; [by apply within_settled | done]|].
      simpl. lia.
    + exists (budget :: ns). split; [constructor; [by eapply within_seen | done]|].
      simpl. nia.
Qed.

Lemma within_await {A B} n (answer : Completion A) (k : A -> Async B) seen :
  (forall a t, answer = Normal a -> seen ⊆ t ->
               t ⊆ (k a t).1 /\ within n (k a t).2 (k a t).1) ->
  within (S n) (await answer k seen).2 (await answer k seen).1.
Proof.
  intros Hk. apply within_Pending. intros t Ht. destruct answer as [a|e]; simpl.
  - by apply Hk.
  - split; [done|]. apply within_settled. by eexists.
Qed.

Lemma within_promiseAll {A B C} ids budget n (call : A -> Async B) items (f : list B -> C)
    seen :
  (forall item t, item ∈ items -> seen ⊆ t -> takes ids budget (call item) t) ->
  size (ids ∖ seen) * budget <= n ->
  seen ⊆ (promiseAll call items f seen).1
  /\ within n (promiseAll call items f seen).2 (promiseAll call items f seen).1.
Proof.
  intros Hcalls Hn. unfold promiseAll.
  destruct (start_takes ids budget (map call items) seen) as [Hsub (ns & Hns & Hsum)].
  { intros c t (item & -> & Hin)%list_elem_of_fmap Ht. by apply Hcalls. }
  destruct (start (map call items) seen) as [s ps]. simpl in *. split; [done|].
  apply within_le with (n := sum_list ns); [by apply within_allOf | lia].
Qed.

Lemma flatten_takes ids resolver fuel info (seen : SeenRefs) :
  identifies ids resolver ->
  tracked ids info \/ info = noInfo ->
  size (ids ∖ seen) < fuel ->
  takes ids (enoughAnswers (size (ids ∖ seen)))
    (generateFlattenedTypeDefinition getTypeTreeAtLocation fuel info resolver) seen.
Proof.
  intros [Hchildren Hresolved]. revert info seen.
  induction fuel as [|fuel IH]; intros info seen Hinfo Hsize; [lia|].
  destruct Hinfo as [(i & Hid & Hne & Hi)| ->].
  2:{ unfold takes. rewrite flatten_noInfo. simpl. split; [done|]. left.
      split; [done|]. by eexists. }
  destruct (revisits (_id info) seen) eqn:Hr.
  { unfold takes. rewrite flatten_revisit by done. simpl. split; [done|]. left.
    split; [done|]. by eexists. }
  assert (i ∉ seen) as Hfresh.
  { intros Hin. rewrite (proj2 (revisits_spec _ _)) in Hr; [done | eauto]. }
  pose proof (size_unvisited_enter _ _ _ Hi Hfresh) as Hlt.
  assert (enter (_id info) seen = {[ i ]} ∪ seen) as Henter
    by (unfold enter; by rewrite Hid, Hne).
  destruct (size (ids ∖ seen)) as [|u] eqn:Hu; [lia|].
  assert (forall child t,
             tracked ids child \/ child = noInfo -> {[ i ]} ∪ seen ⊆ t ->
             takes ids (enoughAnswers u)
               (generateFlattenedTypeDefinition getTypeTreeAtLocation fuel child resolver) t)
    as Hrec.
  { intros child t Hchild Hsub.
    pose proof (size_unvisited_mono ids _ _ Hsub) as Hmono.
    destruct (IH child t Hchild ltac:(lia)) as [Hg Hc]. split; [done|].
    destruct Hc as [Hc | [Hl Hw]]; [by left | right]. split; [done|].
    eapply within_le; [exact Hw|]. apply enoughAnswers_mono. lia. }
  assert (forall children child,
             localizeChildren resolver info = Normal children -> child ∈ children ->
             tracked ids (asInfo child) \/ asInfo child = noInfo) as Hkid.
  { intros children [c|e] Hc Hin; [left; eauto | by right]. }
  assert (forall t, {[ i ]} ∪ seen ⊆ t -> size (ids ∖ t) <= u) as Hbelow.
  { intros t Ht. pose proof (size_unvisited_mono ids _ _ Ht). lia. }
  unfold takes. rewrite flatten_made, Hr, Henter.
  split; [apply union_subseteq_r|]. right. split; [lia|].
  cbn [generateFlattenedTypeDefinition]. rewrite Hr, Henter.
  cbn [enoughAnswers].
  repeat case_match; try (apply within_settled; by eexists).
  - (* reference *)
    apply (within_await (S (u * enoughAnswers u))). intros tree t _ Ht. split; [done|].
    apply (within_await (u * enoughAnswers u)). intros [resolved|] t' Hres Ht'.
    + destruct (Hrec resolved t' ltac:(left; eauto) ltac:(by transitivity t)) as [Hg Hc].
      split; [done|]. destruct Hc as [[_ Hc] | [Hl Hw]]; [by apply within_settled|].
      eapply within_le; [exact Hw|].
      assert (size (ids ∖ t') <= u) by (apply Hbelow; by transitivity t).
      destruct u as [|u']; [lia|]. simpl. nia.
    + split; [done|]. apply within_settled. by eexists.
  - (* object *)
    apply within_le with (n := S (S (u * enoughAnswers u))); [|lia].
    apply (within_await (S (u * enoughAnswers u))). intros children t Hc Ht.
    case_match; [split; [done|]; apply within_settled; by eexists|].
    apply (within_promiseAll ids (enoughAnswers u)).
    + intros [c|e] t' Hin Ht'; simpl; [|apply takes_ret].
      apply takes_awaitCall, Hrec; [left; eauto | by transitivity t].
    + specialize (Hbelow t Ht). nia.
  - (* array *)
    apply within_le with (n := S (S (u * enoughAnswers u))); [|lia].
    apply (within_await (S (u * enoughAnswers u))).
    intros [|child children] t Hc Ht; [split; [done|]; apply within_settled; by eexists|].
    pose proof (takes_awaitCall ids _ _ (fun elementType => elementType +:+ "[]") t
                  (Hrec (asInfo child) t (Hkid _ child Hc ltac:(left)) Ht)) as [Hg Hw].
    split; [done|]. destruct Hw as [[_ Hw] | [Hl Hw]]; [by apply within_settled|].
    eapply within_le; [exact Hw|].
    specialize (Hbelow t Ht). destruct u as [|u']; [lia|]. simpl. nia.
  - (* tuple *)
    apply within_le with (n := S (S (u * enoughAnswers u))); [|lia].
    apply (within_await (S (u * enoughAnswers u))). intros children t Hc Ht.
    apply (within_promiseAll ids (enoughAnswers u)).
    + intros child t' Hin Ht'. apply Hrec; [eauto | by transitivity t].
    + specialize (Hbelow t Ht). nia.
  - (* union *)
    apply within_le with (n := S (S (u * enoughAnswers u))); [|lia].
    apply (within_await (S (u * enoughAnswers u))). intros children t Hc Ht.
    apply (within_promiseAll ids (enoughAnswers u)).
    + intros child t' Hin Ht'. apply Hrec; [eauto | by transitivity t].
    + specialize (Hbelow t Ht). nia.
  - (* intersection *)
    apply within_le with (n := S (S (u * enoughAnswers u))); [|lia].
    apply (within_await (S (u * enoughAnswers u))). intros children t Hc Ht.
    apply (within_promiseAll ids (enoughAnswers u)).
    + intros child t' Hin Ht'. apply Hrec; [eauto | by transitivity t].
    + specialize (Hbelow t Ht). nia.
  - unfold completes. case_match; apply within_settled; by eexists.
  - unfold completes. case_match; apply within_settled; by eexists.
Qed.

End FlattenFacts.

(** *** The flattener, awaited *)

Lemma awaited_call {A} schedule (call call' : Async A) seen seen' :
  call seen = call' seen' -> awaited schedule call seen = awaited schedule call' seen'.
Proof. unfold awaited. by intros ->. Qed.

(** A node that lists its children and awaits [Promise.all] over them is
    fulfilled exactly when the calls for the children are, with [wrap] of
    their results. *)
Lemma awaited_await_promiseAll {A B} n schedule (answer : Completion (list A))
    (call : A -> Async B) (wrap : list B -> string) items seen seen' text :
  answer = Normal items ->
  awaited (n :: schedule) (await answer (fun items => promiseAll call items wrap)) seen
  = (seen', Fulfilled text) <->
  exists results,
    settlesAll schedule (map call items) seen results seen'
    /\ length results = length items
    /\ text = wrap results.
Proof.
  intros ->. rewrite awaited_await, promiseAll_fulfilled. split.
  - intros (results & Hall & ->). exists results. split; [done|]. split; [|done].
    apply settlesAll_length in Hall. by rewrite length_map in Hall.
  - intros (results & Hall & _ & ->). by exists results.
Qed.

Section FlattenResults.

Variable getTypeTreeAtLocation : option SourceFileLocation -> Completion (option TypeInfo).

Lemma flatten_finishes ids resolver fuel info (seen : SeenRefs) schedule :
  identifies ids resolver ->
  tracked ids info \/ info = noInfo ->
  size (ids ∖ seen) < fuel ->
  enoughAnswers (size (ids ∖ seen)) <= length schedule ->
  finishes
    (awaited schedule
       (generateFlattenedTypeDefinition getTypeTreeAtLocation fuel info resolver)) seen.
Proof.
  intros Hids Hinfo Hfuel Hlen.
  pose proof (takes_within _ _ _ _
                (flatten_takes getTypeTreeAtLocation ids resolver fuel info seen
                   Hids Hinfo Hfuel)) as Hw.
  unfold finishes, awaited.
  destruct (generateFlattenedTypeDefinition _ fuel info resolver seen) as [s p].
  simpl in Hw. pose proof (within_run _ schedule p s Hw Hlen) as (o & Ho & Hne).
  destruct (run schedule p s) as [s' p']. simpl in *. by subst p'.
Qed.

Lemma flatten_neverRejects resolver fuel info (seen : SeenRefs) schedule :
  dependable getTypeTreeAtLocation resolver ->
  readable info ->
  neverRejects
    (awaited schedule
       (generateFlattenedTypeDefinition getTypeTreeAtLocation fuel info resolver)) seen.
Proof.
  intros Hdep Hread.
  refine (proj2 (wellBehaved_awaited false schedule _ seen _) eq_refl).
  by apply flatten_wellBehaved.
Qed.

Lemma grows_flatten schedule fuel info resolver :
  grows
    (awaited schedule
       (generateFlattenedTypeDefinition getTypeTreeAtLocation fuel info resolver)).
Proof.
  intros seen seen' o H.
  pose proof (proj1 (wellBehaved_awaited true schedule _ seen
                       (flatten_wellBehaved getTypeTreeAtLocation true resolver fuel info
                          ltac:(done)))) as Hsub.
  by rewrite H in Hsub.
Qed.

(** The visited set does not shrink when a call is made. *)
Lemma flatten_made_subseteq fuel info resolver (seen : SeenRefs) :
  seen ⊆ (generateFlattenedTypeDefinition getTypeTreeAtLocation fuel info resolver seen).1.
Proof.
  apply (flatten_wellBehaved getTypeTreeAtLocation true resolver fuel info ltac:(done) seen 0).
Qed.

(** Once a call is made, the identifier of its node is in the visited
    set. *)
Lemma flatten_made_elem fuel info resolver (seen : SeenRefs) i :
  _id info = Some i -> nonempty i = true ->
  i ∈ (generateFlattenedTypeDefinition getTypeTreeAtLocation (S fuel) info resolver seen).1.
Proof.
  intros Hid Hne. rewrite flatten_made. destruct (revisits (_id info) seen) eqn:Hr.
  - apply revisits_spec in Hr as (j & Hj & _ & Hin). congruence.
  - unfold enter. rewrite Hid, Hne. apply elem_of_union_l. by apply elem_of_singleton.
Qed.

Lemma flatten_enters schedule fuel info resolver (seen seen' : SeenRefs) o i :
  awaited schedule
    (generateFlattenedTypeDefinition getTypeTreeAtLocation (S fuel) info resolver) seen
  = (seen', o) ->
  _id info = Some i -> nonempty i = true -> i ∈ seen'.
Proof.
  intros Hcall Hid Hne.
  pose proof (flatten_made_elem fuel info resolver seen i Hid Hne) as Hin.
  pose proof (flatten_wellBehaved getTypeTreeAtLocation true resolver (S fuel) info
                ltac:(done) seen (length schedule)) as [_ Hb].
  unfold awaited in Hcall.
  destruct (generateFlattenedTypeDefinition _ (S fuel) info resolver seen) as [s p].
  simpl in *. destruct (behaves_run true schedule p s Hb) as [Hsub _].
  destruct (run schedule p s) as [s' p']. simpl in *. injection Hcall as <- _.
  by apply Hsub.
Qed.

(** The calls that [children.map] makes for the nodes [g item]. *)
Lemma madeFrom_flatten_subseteq {A} fuel resolver (g : A -> LocalizedTypeInfo) items
    (seen : SeenRefs) j k :
  j <= k ->
  madeFrom
    (map (fun item =>
            generateFlattenedTypeDefinition getTypeTreeAtLocation fuel (g item) resolver)
       items) seen j
  ⊆ madeFrom
      (map (fun item =>
              generateFlattenedTypeDefinition getTypeTreeAtLocation fuel (g item) resolver)
         items) seen k.
Proof.
  apply madeFrom_le. intros call t (item & -> & _)%list_elem_of_fmap.
  apply flatten_made_subseteq.
Qed.

(** A call is made after the calls for the items before it: their
    identifiers are in the visited set by then. *)
Lemma madeFrom_flatten_earlier {A} fuel resolver (g : A -> LocalizedTypeInfo) items
    (seen : SeenRefs) j k item i :
  j < k -> items !! j = Some item -> _id (g item) = Some i -> nonempty i = true ->
  i ∈ madeFrom
        (map (fun item =>
                generateFlattenedTypeDefinition getTypeTreeAtLocation (S fuel) (g item)
                  resolver)
           items) seen k.
Proof.
  intros Hjk Hj Hid Hne.
  apply (madeFrom_flatten_subseteq (S fuel) resolver g items seen (S j) k ltac:(lia)).
  rewrite (madeFrom_S _ _ j
             (generateFlattenedTypeDefinition getTypeTreeAtLocation (S fuel) (g item)
                resolver)).
  - by apply flatten_made_elem.
  - by rewrite list_lookup_fmap, Hj.
Qed.

(** A child that is a revisit when its call is made is rendered by the
    sentinel. *)
Lemma settlesAll_flatten_revisit {A} schedule fuel resolver (g : A -> LocalizedTypeInfo)
    items (seen seen' : SeenRefs) types k item :
  settlesAll schedule
    (map (fun item =>
            generateFlattenedTypeDefinition getTypeTreeAtLocation fuel (g item) resolver)
       items)
    seen types seen' ->
  items !! k = Some item ->
  revisits (_id (g item))
    (madeFrom
       (map (fun item =>
               generateFlattenedTypeDefinition getTypeTreeAtLocation fuel (g item)
                 resolver)
          items) seen k) = true ->
  types !! k = Some "any // Circular reference".
Proof.
  intros Hall Hk Hr.
  assert (map (fun item =>
                 generateFlattenedTypeDefinition getTypeTreeAtLocation fuel (g item)
                   resolver) items !! k
          = Some (generateFlattenedTypeDefinition getTypeTreeAtLocation fuel (g item)
                    resolver)) as Hcall
    by (by rewrite list_lookup_fmap, Hk).
  destruct (settlesAll_lookup _ _ _ _ _ _ _ Hall Hcall) as (r & Hlookup & Hsettled).
  rewrite Hlookup. f_equal. destruct fuel as [|fuel].
  - by specialize (Hsettled OutOfFuel eq_refl).
  - rewrite flatten_revisit in Hsettled by done.
    specialize (Hsettled _ eq_refl). congruence.
Qed.

(** An error marker handed over as a node is rendered as [any]. *)
Lemma settlesAll_flatten_marker schedule fuel resolver children (seen seen' : SeenRefs)
    types k e :
  settlesAll schedule
    (map (fun child =>
            generateFlattenedTypeDefinition getTypeTreeAtLocation fuel (asInfo child)
              resolver)
       children)
    seen types seen' ->
  children !! k = Some (LocalizeError e) ->
  types !! k = Some "any".
Proof.
  intros Hall Hk.
  assert (map (fun child =>
                 generateFlattenedTypeDefinition getTypeTreeAtLocation fuel (asInfo child)
                   resolver) children !! k
          = Some (generateFlattenedTypeDefinition getTypeTreeAtLocation fuel noInfo resolver))
    as Hcall by (by rewrite list_lookup_fmap, Hk).
  destruct (settlesAll_lookup _ _ _ _ _ _ _ Hall Hcall) as (r & Hlookup & Hsettled).
  rewrite Hlookup. f_equal. destruct fuel as [|fuel].
  - by specialize (Hsettled OutOfFuel eq_refl).
  - rewrite flatten_noInfo in Hsettled. specialize (Hsettled _ eq_refl). congruence.
Qed.

(** The [object] case, once the children are listed. *)
Lemma flatten_object_fulfilled n schedule fuel info resolver (seen seen' : SeenRefs)
    children text :
  kind info = Some "object" ->
  revisits (_id info) seen = false ->
  localizeChildren resolver info = Normal children ->
  children <> [] ->
  awaited (n :: schedule)
    (generateFlattenedTypeDefinition getTypeTreeAtLocation (S fuel) info resolver) seen
  = (seen', Fulfilled text) <->
  exists types,
    settlesAll schedule
      (map (fun child =>
              generateFlattenedTypeDefinition getTypeTreeAtLocation fuel child resolver)
         (localizable children))
      (enter (_id info) seen) types seen'
    /\ length types = length (localizable children)
    /\ text = "{ " +:+ join "; " (zip_with propertyEntry (localizable children) types)
              +:+ " }".
Proof.
  intros Hk Hr Hc Hsome.
  rewrite (awaited_call _ _ _ _ _
             (flatten_object getTypeTreeAtLocation fuel info resolver seen Hr Hk)).
  rewrite awaited_await, Hc.
  destruct children as [|c0 children]; [done|]. cbn [length Nat.eqb].
  rewrite promiseAll_fulfilled.
  destruct (settlesAll_flattenProperty schedule
              (fun child =>
                 generateFlattenedTypeDefinition getTypeTreeAtLocation fuel child resolver)
              (c0 :: children) (enter (_id info) seen) seen') as [H1 H2].
  split.
  - intros (properties & Hall & ->). destruct (H1 _ Hall) as (types & Htypes & ->).
    exists types. split; [done|]. split; [|done].
    apply settlesAll_length in Htypes. by rewrite length_map in Htypes.
  - intros (types & Hall & _ & ->). destruct (H2 _ Hall) as (properties & Hps & <-).
    by exists properties.
Qed.

End FlattenResults.

(** ** Display metadata *)

Lemma one_of_cons x k ks :
  one_of x (k :: ks) = bool_decide (x = Some k) || one_of x ks.
Proof.
  destruct x as [s|]; simpl; [|done].
  destruct (decide (s = k)) as [->|Hne].
  - rewrite (bool_decide_eq_true_2 (k ∈ k :: ks)) by left.
    by rewrite (bool_decide_eq_true_2 (Some k = Some k)).
  - rewrite (bool_decide_eq_false_2 (Some s = Some k)) by congruence. simpl.
    apply bool_decide_ext. rewrite elem_of_cons. tauto.
Qed.

Lemma one_of_nil x : one_of x [] = false.
Proof. by destruct x. Qed.

(** [_getIcon] throws in one case only. *)
Lemma _getIcon_throws info e :
  _getIcon info = Throw e <->
  iconByKind info = true /\ kind info = Some "primitive"
  /\ one_of (primitiveKind info) knownPrimitiveKinds = false
  /\ e = Error "Unhandled primitive case".
Proof.
  unfold _getIcon, iconByKind, kind_is, knownPrimitiveKinds.
  rewrite !one_of_cons, !one_of_nil, !orb_false_r.
  destruct (from_option Symbol.property false (symbol info));
    [simpl; split; [discriminate | by intros [? _]]|].
  destruct (from_option Symbol.isArgument false (symbol info));
    [simpl; split; [discriminate | by intros [? _]]|].
  destruct (bool_decide (purpose info = Some "class_constructor"));
    [simpl; split; [discriminate | by intros [? _]]|].
  simpl. case_bool_decide as Hk.
  - repeat (case_bool_decide; simpl;
            [split; [discriminate | intros (_ & _ & ? & _); discriminate]|]).
    split; [intros [= <-]; done | intros (_ & _ & _ & ->); done].
  - split; [|intros (_ & ? & _); done].
    intros Hthrow. repeat case_match; discriminate.
Qed.

Lemma _getIcon_default info :
  iconByKind info = true -> one_of (kind info) iconKinds = false ->
  _getIcon info = Normal ("symbol-misc", None).
Proof.
  unfold iconByKind, iconKinds, _getIcon, kind_is.
  rewrite !one_of_cons, !one_of_nil, !orb_false_r.
  intros [[Hp%negb_true_iff Ha%negb_true_iff]%andb_true_iff Hc%negb_true_iff]%andb_true_iff.
  rewrite Hp, Ha, Hc.
  repeat (case_bool_decide; simpl; [discriminate|]). done.
Qed.

Lemma getMeta_throws config localizePurpose info depth e :
  getMeta config localizePurpose info depth = Throw e <->
  iconsEnabled config = true /\ _getIcon info = Throw e.
Proof.
  unfold getMeta, getIcon, bindC.
  destruct (iconsEnabled config); simpl.
  - destruct (_getIcon info) as [ids|e']; simpl.
    + split; [discriminate | intros [_ ?]; discriminate].
    + split; [intros [= ->]; done | intros [_ [= ->]]; done].
  - split; [discriminate | intros [? _]; discriminate].
Qed.

(** [getMeta] returns, or throws the one error of [_getIcon]. *)
Lemma getMeta_returns_or_throws config localizePurpose info depth :
  (exists meta, getMeta config localizePurpose info depth = Normal meta)
  \/ getMeta config localizePurpose info depth = Throw (Error "Unhandled primitive case").
Proof.
  destruct (getMeta config localizePurpose info depth) as [meta|e] eqn:E; [left; eauto|].
  right. apply getMeta_throws in E as [_ E]. by apply _getIcon_throws in E as (_ & _ & _ & ->).
Qed.

(** What [getMeta] returns carries the state and the tag computed from the
    node. *)
Lemma getMeta_fields config localizePurpose info depth meta :
  getMeta config localizePurpose info depth = Normal meta ->
  collapsibleState meta = getCollapsibleState info depth
  /\ contextValue meta = getContextValue info.
Proof.
  unfold getMeta, bindC. destruct (getIcon config info); [|discriminate].
  by intros [= <-].
Qed.

(** ** The sample trees meet the assumptions *)

Lemma chain_identified : identifies Examples.chainIds Examples.chainResolver.
Proof.
  split; [|discriminate].
  intros info children child [= <-]. unfold Examples.childrenIn. simpl.
  case_bool_decide; simpl; [|by intros ?%elem_of_nil].
  intros [Heq|[Heq|Hnil%elem_of_nil]%elem_of_cons]%elem_of_cons; [| |done].
  - injection Heq as ->. exists "2". split; [done|]. split; [done|].
    unfold Examples.chainIds. set_solver.
  - injection Heq as ->. exists "Node". split; [done|]. split; [done|].
    unfold Examples.chainIds. set_solver.
Qed.

Lemma chain_tracked : tracked Examples.chainIds Examples.chain.
Proof.
  exists "Node". split; [done|]. split; [done|]. unfold Examples.chainIds. set_solver.
Qed.

Lemma record_readable : readable Examples.record.
Proof. split; [discriminate | by intros []]. Qed.

Lemma record_dependable : dependable Examples.noTree Examples.rootedResolver.
Proof.
  split; [|split; [|split; [|split]]].
  - intros loc. by eexists.
  - intros tree. by eexists.
  - intros info. by eexists.
  - intros info children child [= <-]. unfold Examples.childrenIn. simpl.
    case_bool_decide; simpl; [|by intros ?%elem_of_nil].
    intros [Heq|[Heq|Hnil%elem_of_nil]%elem_of_cons]%elem_of_cons; [| |done];
      injection Heq as ->; split; [discriminate | by intros [] | discriminate | by intros []].
  - intros tree resolved [= <-]. apply record_readable.
Qed.

(** * The claims *)




(** C2 (the code departs from the claim). A well-formed [reference] node
    carries [locations], not a [location] property, so the guard of the
    reference case is false for it: the node falls through to the final
    [any], whether the resolver fails to resolve its declaration (first
    part), would resolve it to [string] (second part), or does anything else
    (third part). The promise is fulfilled when the call returns: neither
    the language server nor the resolver is asked, and no answer is waited
    for. *)
Theorem reference_never_resolved :
  generateFlattenedTypeDefinition Examples.noTree 3 Examples.pointer
    (Examples.resolverOf []) ∅
  = ({[ "1" ]} ∪ ∅, Settled (Fulfilled "any"))
  /\ generateFlattenedTypeDefinition Examples.someTree 3 Examples.pointer
       Examples.stringResolver ∅
     = ({[ "1" ]} ∪ ∅, Settled (Fulfilled "any"))
  /\ forall getTypeTreeAtLocation resolver fuel,
       generateFlattenedTypeDefinition getTypeTreeAtLocation (S fuel) Examples.pointer
         resolver ∅
       = ({[ "1" ]} ∪ ∅, Settled (Fulfilled "any"))
       /\ forall schedule,
            awaited schedule
              (generateFlattenedTypeDefinition getTypeTreeAtLocation (S fuel)
                 Examples.pointer resolver) ∅
            = ({[ "1" ]} ∪ ∅, Fulfilled "any").
Proof.
  assert (forall gt resolver fuel,
             generateFlattenedTypeDefinition gt (S fuel) Examples.pointer resolver ∅
             = ({[ "1" ]} ∪ ∅, Settled (Fulfilled "any"))) as H.
  { intros. by apply flatten_reference_without_location; [apply revisits_empty | |]. }
  split; [apply H | split; [apply H |]].
  intros gt resolver fuel. split; [apply H|].
  intros schedule. unfold awaited. rewrite H. by rewrite run_Settled.
Qed.

(** C3, as the claim states it, fails: listing the children of a nested
    node is rejected, nothing in the recursion catches it, and the command
    reports a failure although the root tree, the resolver and the localized
    root are all there. *)
Lemma nested_rejection_fails_the_command :
  getTypeTree Examples.brokenState = Some Examples.outerTree
  /\ getTypeInfoResolver Examples.brokenState = Some Examples.brokenResolver
  /\ localize Examples.brokenResolver (Some Examples.outerTree) = Normal (Some Examples.outer)
  /\ forall n m schedule,
       (awaited (n :: m :: schedule)
          (generateFlattenedTypeDefinition Examples.noTree 5 Examples.outer
             Examples.brokenResolver) ∅).2
       = Rejected (HostError "language server unavailable")
       /\ copyTypeAsTypescriptType Examples.noTree Examples.clipboard (n :: m :: schedule) 5
            Examples.brokenState
          = Some (ErrorMessage "Failed to copy type information.").
Proof.
  split; [reflexivity | split; [reflexivity | split; [reflexivity|]]].
  intros n m schedule.
  assert ((awaited (n :: m :: schedule)
             (generateFlattenedTypeDefinition Examples.noTree 5 Examples.outer
                Examples.brokenResolver) ∅).2
          = Rejected (HostError "language server unavailable")) as H.
  { change (n :: m :: schedule) with ([n; m] ++ schedule).
    by erewrite awaited_extend; [|reflexivity|]. }
  split; [exact H|].
  unfold copyTypeAsTypescriptType, copyAttempt. cbn [Examples.brokenState getTypeTree
    getTypeInfoResolver Examples.brokenResolver localize answers andThen].
  by rewrite H.
Qed.

(** C3 (amended). Flatten returns [any] for every node, not a revisit, whose
    kind it has no case for. It catches nothing: when no call into the
    resolver or the language server throws and the nodes carry the properties
    read from them, no flatten is rejected, whatever the order of the
    answers. The command reports that no type information is available when
    the root tree or the resolver is missing, and a failure whenever
    something in its [try] block is rejected: the flattening of the root, in
    particular, and the reading of a root that the resolver localizes to
    nothing. When the resolver localizes the root tree to a node, no call
    throws, the tree has a symbol and the clipboard works, it reports no
    failure. *)
Theorem flatten_total_unless_a_call_throws :
  (forall getTypeTreeAtLocation fuel info resolver (seen : SeenRefs) schedule,
      revisits (_id info) seen = false ->
      one_of (kind info) handledKinds = false ->
      awaited schedule
        (generateFlattenedTypeDefinition getTypeTreeAtLocation (S fuel) info resolver) seen
      = (enter (_id info) seen, Fulfilled "any"))
  /\ (forall getTypeTreeAtLocation resolver fuel info (seen : SeenRefs) schedule,
         dependable getTypeTreeAtLocation resolver ->
         readable info ->
         neverRejects
           (awaited schedule
              (generateFlattenedTypeDefinition getTypeTreeAtLocation fuel info resolver))
           seen)
  /\ (forall getTypeTreeAtLocation formatAndCopyToClipboard schedule fuel stateManager,
         (getTypeTree stateManager = None \/ getTypeInfoResolver stateManager = None ->
          copyTypeAsTypescriptType getTypeTreeAtLocation formatAndCopyToClipboard schedule
            fuel stateManager
          = Some (InformationMessage "No type information available."))
         /\ (forall typeInfo resolver,
                getTypeTree stateManager = Some typeInfo ->
                getTypeInfoResolver stateManager = Some resolver ->
                (forall e,
                    copyAttempt getTypeTreeAtLocation formatAndCopyToClipboard schedule fuel
                      typeInfo resolver = Rejected e ->
                    copyTypeAsTypescriptType getTypeTreeAtLocation formatAndCopyToClipboard
                      schedule fuel stateManager
                    = Some (ErrorMessage "Failed to copy type information."))
                /\ (forall root e,
                       localize resolver (Some typeInfo) = Normal (Some root) ->
                       (awaited schedule
                          (generateFlattenedTypeDefinition getTypeTreeAtLocation fuel root
                             resolver) ∅).2
                       = Rejected e ->
                       copyTypeAsTypescriptType getTypeTreeAtLocation
                         formatAndCopyToClipboard schedule fuel stateManager
                       = Some (ErrorMessage "Failed to copy type information."))
                /\ (localize resolver (Some typeInfo) = Normal None ->
                    copyTypeAsTypescriptType getTypeTreeAtLocation formatAndCopyToClipboard
                      schedule fuel stateManager
                    = Some (ErrorMessage "Failed to copy type information."))
                /\ (forall root,
                       dependable getTypeTreeAtLocation resolver ->
                       localize resolver (Some typeInfo) = Normal (Some root) ->
                       readable root ->
                       is_Some (symbolMeta typeInfo) ->
                       (forall content, formatAndCopyToClipboard content = Normal tt) ->
                       copyTypeAsTypescriptType getTypeTreeAtLocation
                         formatAndCopyToClipboard schedule fuel stateManager
                       = Some (InformationMessage "Flattened type copied to clipboard!")
                       \/ copyTypeAsTypescriptType getTypeTreeAtLocation
                            formatAndCopyToClipboard schedule fuel stateManager
                          = None))).
Proof.
  split; [|split].
  - intros gt fuel info resolver seen schedule Hr Hk. unfold awaited.
    rewrite flatten_unhandled by done. by rewrite run_Settled.
  - intros gt resolver fuel info seen schedule Hdep Hread. by apply flatten_neverRejects.
  - intros gt fc schedule fuel sm. unfold copyTypeAsTypescriptType. split.
    + intros [-> | ->]; [done|]. by destruct (getTypeTree sm).
    + intros typeInfo resolver -> ->. split; [|split; [|split]].
      * intros e ->. reflexivity.
      * intros root e Hroot Hflat. unfold copyAttempt. rewrite Hroot.
        cbn [answers andThen]. by rewrite Hflat.
      * intros Hroot. unfold copyAttempt. by rewrite Hroot.
      * intros root Hdep Hroot Hreadable [meta Hmeta] Hfc.
        pose proof (flatten_neverRejects gt resolver fuel root ∅ schedule Hdep Hreadable)
          as Hnever.
        unfold neverRejects in Hnever.
        unfold copyAttempt. rewrite Hroot, Hmeta. cbn [answers andThen].
        destruct (awaited schedule (generateFlattenedTypeDefinition gt fuel root resolver) ∅)
          as [seen [text|e|]]; simpl in *.
        -- rewrite Hfc. by left.
        -- by destruct (Hnever e).
        -- by right.
Qed.

Lemma flatten_total_unless_a_call_throws_witness :
  dependable Examples.noTree Examples.rootedResolver
  /\ readable Examples.record
  /\ is_Some (symbolMeta Examples.outerTree)
  /\ (copyTypeAsTypescriptType Examples.noTree Examples.clipboard [0] 3 Examples.recordState
      = Some (InformationMessage "Flattened type copied to clipboard!")
      \/ copyTypeAsTypescriptType Examples.noTree Examples.clipboard [0] 3
           Examples.recordState
         = None).
Proof.
  assert (is_Some (symbolMeta Examples.outerTree)) as Hname by (by eexists).
  split; [apply record_dependable | split; [apply record_readable | split; [exact Hname|]]].
  exact (proj2 (proj2 (proj2 (proj2 (proj2 (proj2 flatten_total_unless_a_call_throws)
                                       Examples.noTree Examples.clipboard [0] 3
                                       Examples.recordState)
                                Examples.outerTree Examples.rootedResolver eq_refl eq_refl)))
           Examples.record record_dependable eq_refl record_readable Hname
           (fun _ => eq_refl)).
Defined.

(** C4. A node whose non-empty identifier is already in the visited set of
    the invocation flattens to [any // Circular reference]: with any fuel, so
    also with none left for a recursive call, whatever the resolver and the
    language server would answer, and leaving the visited set as it was. The
    promise is fulfilled when the call returns: nothing is asked, and no
    answer is waited for. *)
Theorem circular_reference_not_expanded
    getTypeTreeAtLocation fuel info resolver (seen : SeenRefs) i :
  _id info = Some i -> nonempty i = true -> i ∈ seen ->
  generateFlattenedTypeDefinition getTypeTreeAtLocation (S fuel) info resolver seen
  = (seen, Settled (Fulfilled "any // Circular reference"))
  /\ forall schedule,
       awaited schedule
         (generateFlattenedTypeDefinition getTypeTreeAtLocation (S fuel) info resolver) seen
       = (seen, Fulfilled "any // Circular reference").
Proof.
  intros Hid Hne Hin.
  assert (generateFlattenedTypeDefinition getTypeTreeAtLocation (S fuel) info resolver seen
          = (seen, Settled (Fulfilled "any // Circular reference"))) as H.
  { apply flatten_revisit, revisits_spec. eauto. }
  split; [exact H|]. intros schedule. unfold awaited. rewrite H. by rewrite run_Settled.
Qed.

Lemma circular_reference_not_expanded_witness :
  _id Examples.twice = Some "T" /\ nonempty "T" = true /\ "T" ∈ ({[ "T" ]} : gset string)
  /\ generateFlattenedTypeDefinition Examples.noTree 1 Examples.twice
       Examples.brokenResolver {[ "T" ]}
     = ({[ "T" ]}, Settled (Fulfilled "any // Circular reference")).
Proof.
  split; [reflexivity | split; [reflexivity | split; [apply elem_of_singleton_2; reflexivity |]]].
  apply (circular_reference_not_expanded Examples.noTree 0 Examples.twice
           Examples.brokenResolver {[ "T" ]} "T" eq_refl eq_refl).
  apply elem_of_singleton_2. reflexivity.
Defined.

(** C5, as the claim states it, fails twice. The self-referential
    [type T = { a: T, b: T }] flattens to a text with two sentinels, one for
    each property that refers back. And a self-referential object whose nodes
    carry no [_id] is never entered in the visited set: its flattening is
    not settled, whatever the fuel and however many answers arrive. *)
Lemma cyclic_inputs_beyond_one_sentinel :
  (forall n schedule,
      (awaited (n :: schedule)
         (generateFlattenedTypeDefinition Examples.noTree 2 Examples.twice
            Examples.twiceResolver) ∅).2
      = Fulfilled "{ a: any // Circular reference; b: any // Circular reference }")
  /\ occurrences "any // Circular reference"
       "{ a: any // Circular reference; b: any // Circular reference }" = 2
  /\ forall fuel schedule,
       (awaited schedule
          (generateFlattenedTypeDefinition Examples.noTree fuel Examples.anonymousSelf
             Examples.anonymousResolver) ∅).2
       = OutOfFuel.
Proof.
  split; [|split; [reflexivity|]].
  { intros n schedule. change (n :: schedule) with ([n] ++ schedule).
    by erewrite awaited_extend; [|reflexivity|]. }
  assert (forall fuel info (seen : SeenRefs) n,
             _id info = None -> kind info = Some "object" ->
             pends n (generateFlattenedTypeDefinition Examples.noTree fuel info
                        Examples.anonymousResolver seen).2) as Hloop.
  { induction fuel as [|fuel IH]; intros info seen n Hid Hk; [apply pends_OutOfFuel|].
    rewrite flatten_object by (done || by rewrite Hid).
    apply pends_Pending. clear seen n. intros seen n.
    assert (localizeChildren Examples.anonymousResolver info
            = Normal [Examples.property "self" false Examples.anonymousSelf]) as ->.
    { simpl. unfold Examples.childrenIn. by rewrite Hid. }
    cbn [length Nat.eqb]. unfold promiseAll.
    cbn [map start Examples.property flattenProperty]. unfold awaitCall.
    specialize (IH (asInfo (Examples.property "self" false Examples.anonymousSelf)) seen n
                  eq_refl eq_refl).
    cbn [asInfo Examples.property] in IH.
    destruct (generateFlattenedTypeDefinition _ fuel _ _ seen) as [seen' p].
    simpl in *. by apply pends_allOf, pends_thenReturn. }
  intros fuel schedule. unfold awaited.
  pose proof (Hloop fuel Examples.anonymousSelf ∅ (length schedule) eq_refl eq_refl) as Hp.
  destruct (generateFlattenedTypeDefinition _ fuel _ _ ∅) as [seen p]. simpl in Hp.
  pose proof (pends_run schedule p seen Hp) as Ho.
  by destruct (run schedule p seen).
Qed.

(** C5 (amended). When every node the resolver hands out carries a
    non-empty identifier from a finite set, flatten settles, whatever the
    order in which the answers arrive: a fuel above the number of
    identifiers not yet visited is never exhausted, and the call is settled
    once [enoughAnswers] answers have arrived, a number that depends on the
    number of these identifiers only. An object node that carries an
    identifier records it before its children are listed, so every property
    whose identifier is in the visited set by then, as the identifier of the
    object itself is, is rendered with the sentinel
    [any // Circular reference] as its type: one sentinel for each such
    property. So [type Node = { value: number, next: Node }] flattens to
    [{ value: number; next: any // Circular reference }], with one
    sentinel. *)
Theorem identified_cycles_terminate :
  (forall getTypeTreeAtLocation ids resolver fuel info (seen : SeenRefs) schedule,
      identifies ids resolver ->
      tracked ids info ->
      size (ids ∖ seen) < fuel ->
      enoughAnswers (size (ids ∖ seen)) <= length schedule ->
      finishes
        (awaited schedule
           (generateFlattenedTypeDefinition getTypeTreeAtLocation fuel info resolver))
        seen)
  /\ (forall getTypeTreeAtLocation fuel info resolver (seen seen' : SeenRefs) children
             n schedule text,
         kind info = Some "object" ->
         revisits (_id info) seen = false ->
         localizeChildren resolver info = Normal children -> children <> [] ->
         awaited (n :: schedule)
           (generateFlattenedTypeDefinition getTypeTreeAtLocation (S fuel) info resolver) seen
         = (seen', Fulfilled text) ->
         exists types,
           text = "{ " +:+ join "; " (zip_with propertyEntry (localizable children) types)
                  +:+ " }"
           /\ length types = length (localizable children)
           /\ forall k child i,
                localizable children !! k = Some child ->
                _id child = Some i -> nonempty i = true -> i ∈ enter (_id info) seen ->
                types !! k = Some "any // Circular reference")
  /\ (forall n schedule,
         (awaited (n :: schedule)
            (generateFlattenedTypeDefinition Examples.noTree 2 Examples.chain
               Examples.chainResolver) ∅).2
         = Fulfilled "{ value: number; next: any // Circular reference }")
  /\ occurrences "any // Circular reference"
       "{ value: number; next: any // Circular reference }" = 1.
Proof.
  split; [|split; [|split; [|reflexivity]]].
  - intros gt ids resolver fuel info seen schedule Hids Hinfo Hsize Hlen.
    apply (flatten_finishes gt ids); auto.
  - intros gt fuel info resolver seen seen' children n schedule text Hk Hr Hc Hsome Hcall.
    apply (flatten_object_fulfilled gt n schedule fuel info resolver seen seen' children
             text Hk Hr Hc Hsome) in Hcall as (types & Hall & Hlen & ->).
    exists types. split; [done|]. split; [done|].
    intros k child i Hlookup Hid Hne Hin.
    apply (settlesAll_flatten_revisit gt schedule fuel resolver (fun c => c) _ _ _ _ k child
             Hall Hlookup).
    apply revisits_spec. exists i. split; [done|]. split; [done|].
    apply (madeFrom_flatten_subseteq gt fuel resolver (fun c => c) _ _ 0 k ltac:(lia)).
    by rewrite madeFrom_0.
  - intros n schedule. change (n :: schedule) with ([n] ++ schedule).
    by erewrite awaited_extend; [|reflexivity|].
Qed.

Lemma identified_cycles_terminate_witness :
  identifies Examples.chainIds Examples.chainResolver
  /\ tracked Examples.chainIds Examples.chain
  /\ size (Examples.chainIds ∖ ∅) < 3
  /\ enoughAnswers (size (Examples.chainIds ∖ ∅)) <= length [0; 0; 0; 0]
  /\ finishes
       (awaited [0; 0; 0; 0]
          (generateFlattenedTypeDefinition Examples.noTree 3 Examples.chain
             Examples.chainResolver)) ∅.
Proof.
  assert (size (Examples.chainIds ∖ ∅) < 3) as Hsize by (vm_compute; lia).
  assert (enoughAnswers (size (Examples.chainIds ∖ ∅)) <= length [0; 0; 0; 0]) as Hlen
    by (vm_compute; lia).
  split; [apply chain_identified | split; [apply chain_tracked |]].
  split; [exact Hsize | split; [exact Hlen|]].
  exact (proj1 identified_cycles_terminate Examples.noTree Examples.chainIds
           Examples.chainResolver 3 Examples.chain ∅ [0; 0; 0; 0] chain_identified
           chain_tracked Hsize Hlen).
Defined.



(** C7. A leaf that is not a revisit flattens, without consulting the
    resolver or waiting for any answer, to: its [primitiveKind] as it
    stands, or [any] when it has none, for a [primitive]; its value between
    two double quotes (the character 34) for a [string_literal]; the text of
    its value, with nothing around it, for a [number_literal] or a
    [boolean_literal] that carries one. *)
Theorem flatten_leaf getTypeTreeAtLocation fuel info resolver (seen : SeenRefs) schedule :
  revisits (_id info) seen = false ->
  let flattened :=
    awaited schedule
      (generateFlattenedTypeDefinition getTypeTreeAtLocation (S fuel) info resolver) seen in
  (kind info = Some "primitive" ->
   (forall keyword, primitiveKind info = Some keyword ->
                    flattened = (enter (_id info) seen, Fulfilled keyword))
   /\ (primitiveKind info = None -> flattened = (enter (_id info) seen, Fulfilled "any")))
  /\ (kind info = Some "string_literal" ->
      forall s, value info = JsString s ->
                flattened
                = (enter (_id info) seen,
                   Fulfilled (String "034"%char (s +:+ String "034"%char EmptyString))))
  /\ (kind info = Some "number_literal" ->
      forall text, value info = JsNumber text ->
                   flattened = (enter (_id info) seen, Fulfilled text))
  /\ (kind info = Some "boolean_literal" ->
      forall b, value info = JsBoolean b ->
                flattened = (enter (_id info) seen, Fulfilled (if b then "true" else "false"))).
Proof.
  intros Hr flattened. subst flattened. unfold awaited.
  split; [|split; [|split]]; intros Hk.
  - rewrite flatten_primitive by done. rewrite run_Settled. split.
    + intros keyword Hp. by rewrite Hp.
    + intros Hp. by rewrite Hp.
  - intros s Hv. rewrite flatten_string_literal by done. rewrite run_Settled.
    by rewrite Hv.
  - intros text Hv. rewrite flatten_number_literal by done. rewrite Hv. simpl.
    by rewrite run_Settled.
  - intros b Hv. rewrite flatten_boolean_literal by done. rewrite Hv. simpl.
    rewrite run_Settled. by destruct b.
Qed.

Lemma flatten_leaf_witness :
  revisits (_id (Examples.literal "number_literal" (JsNumber "42") "7")) ∅ = false
  /\ awaited []
       (generateFlattenedTypeDefinition Examples.noTree 1
          (Examples.literal "number_literal" (JsNumber "42") "7") Examples.brokenResolver) ∅
     = ({[ "7" ]} ∪ ∅, Fulfilled "42").
Proof.
  split; [apply revisits_empty|].
  exact (proj1 (proj2 (proj2 (flatten_leaf Examples.noTree 0
           (Examples.literal "number_literal" (JsNumber "42") "7") Examples.brokenResolver ∅
           [] (revisits_empty _)))) eq_refl "42" eq_refl).
Defined.

(** C8, as the claim states it, fails: with icons enabled, a [primitive]
    node without a [primitiveKind] makes [getMeta] throw, although the
    flattener renders the very same node as [any]. *)
Lemma primitive_without_keyword_throws :
  getMeta Examples.allOn Examples.verbatim (Examples.node "primitive" (Some "1")) 1
  = Throw (Error "Unhandled primitive case")
  /\ (generateFlattenedTypeDefinition Examples.noTree 1
        (Examples.node "primitive" (Some "1")) (Examples.resolverOf []) ∅).2
     = Settled (Fulfilled "any").
Proof. split; reflexivity. Qed.

(** C8 (amended). The icon mapping has a default for kinds: a node whose
    kind is none of those listed, an unrecognized or future kind included,
    gets the icon [symbol-misc], and [getMeta] returns for every node whose
    kind is not [primitive]. It is not total over the metadata of a
    [primitive] node: [getMeta] throws [Unhandled primitive case] exactly
    when icons are enabled, neither the symbol nor the purpose decides the
    icon, and the node is a [primitive] whose [primitiveKind] is absent or
    not one of the twelve known keywords. *)
Theorem getMeta_throws_only_for_unknown_primitive config localizePurpose info depth :
  (forall e,
      getMeta config localizePurpose info depth = Throw e <->
      iconsEnabled config = true /\ iconByKind info = true
      /\ kind info = Some "primitive"
      /\ one_of (primitiveKind info) knownPrimitiveKinds = false
      /\ e = Error "Unhandled primitive case")
  /\ (iconByKind info = true -> one_of (kind info) iconKinds = false ->
      _getIcon info = Normal ("symbol-misc", None))
  /\ (kind info <> Some "primitive" ->
      exists meta, getMeta config localizePurpose info depth = Normal meta).
Proof.
  split; [|split].
  - intros e. rewrite getMeta_throws, _getIcon_throws. tauto.
  - apply _getIcon_default.
  - intros Hk.
    destruct (getMeta config localizePurpose info depth) as [meta|e] eqn:E; [by exists meta|].
    apply getMeta_throws in E as [_ E]. apply _getIcon_throws in E as (_ & ? & _). done.
Qed.

Lemma getMeta_throws_only_for_unknown_primitive_witness :
  iconByKind (Examples.node "brand_new_kind" (Some "1")) = true
  /\ one_of (kind (Examples.node "brand_new_kind" (Some "1"))) iconKinds = false
  /\ _getIcon (Examples.node "brand_new_kind" (Some "1")) = Normal ("symbol-misc", None)
  /\ exists meta,
       getMeta Examples.allOn Examples.verbatim (Examples.node "brand_new_kind" (Some "1")) 1
       = Normal meta.
Proof.
  split; [reflexivity | split; [reflexivity | split]].
  - exact (proj1 (proj2 (getMeta_throws_only_for_unknown_primitive Examples.allOn
                           Examples.verbatim (Examples.node "brand_new_kind" (Some "1")) 1))
             eq_refl eq_refl).
  - apply (proj2 (proj2 (getMeta_throws_only_for_unknown_primitive Examples.allOn
                           Examples.verbatim (Examples.node "brand_new_kind" (Some "1")) 1))).
    discriminate.
Defined.

(** C9. For every node, setting and depth, the context tag that [getMeta]
    returns is the one [getContextValue] computes from the node alone:
    [declared] exactly when [locations] is present and holds at least one
    declaration, and absent otherwise. ([getMeta] returns unless it throws
    the one error of the icon mapping.) *)
Theorem getMeta_contextValue config localizePurpose info depth :
  (forall meta,
      getMeta config localizePurpose info depth = Normal meta ->
      contextValue meta = getContextValue info)
  /\ (getContextValue info = Some declared <->
      exists loc locs, locations info = Some (loc :: locs))
  /\ (getContextValue info = None <->
      locations info = None \/ locations info = Some [])
  /\ ((exists meta, getMeta config localizePurpose info depth = Normal meta)
      \/ getMeta config localizePurpose info depth
         = Throw (Error "Unhandled primitive case")).
Proof.
  split; [|split; [|split]].
  - intros meta Hmeta. by apply getMeta_fields in Hmeta as [_ ?].
  - unfold getContextValue. destruct (locations info) as [[|loc locs]|]; simpl.
    + split; [discriminate | intros (? & ? & ?); discriminate].
    + split; [eauto | done].
    + split; [discriminate | intros (? & ? & ?); discriminate].
  - unfold getContextValue. destruct (locations info) as [[|loc locs]|]; simpl.
    + split; [by right | done].
    + split; [discriminate | intros [?|?]; discriminate].
    + split; [by left | done].
  - apply getMeta_returns_or_throws.
Qed.

Lemma getMeta_contextValue_witness :
  getMeta Examples.allOn Examples.verbatim Examples.pointer 1
  = Normal {| label := EmptyString; description := None;
              contextValue := Some declared;
              icon := Some {| iconId := "symbol-misc"; iconColor := Some "symbol-misc" |};
              collapsibleState := NoChildren |}
  /\ getContextValue Examples.pointer = Some declared.
Proof.
  split; [reflexivity|].
  exact (eq_sym (proj1 (getMeta_contextValue Examples.allOn Examples.verbatim
                          Examples.pointer 1) _ eq_refl)).
Defined.

(** C10. For every node, setting and depth, the collapsible state that
    [getMeta] returns is the one [getCollapsibleState] computes from the node
    and the depth: [NoChildren] exactly when the node has no [children]
    property or an empty one; for a node with children, [Expanded] at every
    depth when the purpose is [jsx_properties], and otherwise [Expanded]
    exactly at depth 1 and [Collapsed] at every other depth. ([getMeta]
    returns unless it throws the one error of the icon mapping.) *)
Theorem getMeta_collapsibleState config localizePurpose info depth :
  (forall meta,
      getMeta config localizePurpose info depth = Normal meta ->
      collapsibleState meta = getCollapsibleState info depth)
  /\ (getCollapsibleState info depth = NoChildren <->
      children info = None \/ children info = Some [])
  /\ (forall child rest,
         children info = Some (child :: rest) ->
         (purpose info = Some "jsx_properties" ->
          getCollapsibleState info depth = Expanded)
         /\ (purpose info <> Some "jsx_properties" ->
             (getCollapsibleState info depth = Expanded <-> depth = 1%Z)
             /\ (getCollapsibleState info depth = Collapsed <-> depth <> 1%Z)))
  /\ ((exists meta, getMeta config localizePurpose info depth = Normal meta)
      \/ getMeta config localizePurpose info depth
         = Throw (Error "Unhandled primitive case")).
Proof.
  split; [|split; [|split]].
  - intros meta Hmeta. by apply getMeta_fields in Hmeta as [? _].
  - unfold getCollapsibleState. destruct (children info) as [[|child rest]|]; simpl.
    + split; [by right | done].
    + repeat case_match; split; try discriminate; intros [?|?]; discriminate.
    + split; [by left | done].
  - intros child rest Hc. unfold getCollapsibleState. rewrite Hc. simpl. split.
    + intros ->. by rewrite bool_decide_eq_true_2.
    + intros Hp. rewrite bool_decide_eq_false_2 by done.
      destruct (Z.eqb_spec depth 1); split; split; try discriminate; try done.
  - apply getMeta_returns_or_throws.
Qed.

Lemma getMeta_collapsibleState_witness :
  getMeta Examples.allOn Examples.verbatim Examples.parent 2
  = Normal {| label := EmptyString; description := None; contextValue := None;
              icon := Some {| iconId := "symbol-object"; iconColor := Some "symbol-object" |};
              collapsibleState := Collapsed |}
  /\ getCollapsibleState Examples.parent 2 = Collapsed.
Proof.
  split; [reflexivity|].
  exact (eq_sym (proj1 (getMeta_collapsibleState Examples.allOn Examples.verbatim
                          Examples.parent 2) _ eq_refl)).
Defined.

(** * Further properties *)

(** ** The flattener *)





(** When the guard of the reference case does hold (the node carries a
    [location] property besides [locations]), the node is resolved through
    the first of its [locations] only: without [locations] the call is
    rejected with a [TypeError] as soon as it is made; otherwise it awaits
    the language server, then the resolver; an unresolved tree gives
    [any // Failed to resolve reference]; a resolved node is flattened in its
    place, with the reference's identifier already visited, so that a
    resolved node carrying the identifier of the reference itself is rendered
    as [any // Circular reference]. *)
Theorem flatten_reference_through_first_location
    getTypeTreeAtLocation fuel info resolver (seen : SeenRefs) loc :
  kind info = Some "reference" ->
  location info = Some loc ->
  revisits (_id info) seen = false ->
  (locations info = None ->
   exists e, forall schedule,
     awaited schedule
       (generateFlattenedTypeDefinition getTypeTreeAtLocation (S fuel) info resolver) seen
     = (enter (_id info) seen, Rejected (TypeError e)))
  /\ (forall locs tree n m schedule,
         locations info = Some locs ->
         getTypeTreeAtLocation (head locs) = Normal tree ->
         (localize resolver tree = Normal None ->
          awaited (n :: m :: schedule)
            (generateFlattenedTypeDefinition getTypeTreeAtLocation (S fuel) info resolver)
            seen
          = (enter (_id info) seen, Fulfilled "any // Failed to resolve reference"))
         /\ (forall resolved,
                localize resolver tree = Normal (Some resolved) ->
                awaited (n :: m :: schedule)
                  (generateFlattenedTypeDefinition getTypeTreeAtLocation (S fuel) info
                     resolver) seen
                = awaited schedule
                    (generateFlattenedTypeDefinition getTypeTreeAtLocation fuel resolved
                       resolver)
                    (enter (_id info) seen))
         /\ (forall resolved i,
                localize resolver tree = Normal (Some resolved) ->
                _id info = Some i -> _id resolved = Some i -> nonempty i = true ->
                fuel <> 0 ->
                awaited (n :: m :: schedule)
                  (generateFlattenedTypeDefinition getTypeTreeAtLocation (S fuel) info
                     resolver) seen
                = (enter (_id info) seen, Fulfilled "any // Circular reference"))).
Proof.
  intros Hk Hl Hr.
  pose proof (flatten_reference_with_location getTypeTreeAtLocation fuel info resolver seen
                loc Hr Hk Hl) as Hcall.
  split.
  - intros Hnone. rewrite Hnone in Hcall. eexists. intros schedule.
    rewrite (awaited_call _ _ _ _ _ Hcall). apply awaited_throw.
  - intros locs tree n m schedule Hlocs Htree. rewrite Hlocs in Hcall.
    rewrite (awaited_call _ _ _ _ _ Hcall), awaited_await, Htree, awaited_await.
    split; [|split].
    + intros ->. apply awaited_ret.
    + intros resolved ->. reflexivity.
    + intros resolved i -> Hid Hrid Hne Hfuel.
      destruct fuel as [|fuel]; [done|]. unfold awaited.
      rewrite flatten_revisit; [by rewrite run_Settled|].
      apply revisits_spec. exists i. split; [done|]. split; [done|].
      unfold enter. rewrite Hid, Hne. apply elem_of_union_l. by apply elem_of_singleton.
Qed.

Lemma flatten_reference_through_first_location_witness :
  kind Samples.located = Some "reference"
  /\ location Samples.located = Some Examples.declaration
  /\ revisits (_id Samples.located) ∅ = false
  /\ awaited [0; 0]
       (generateFlattenedTypeDefinition Examples.noTree 1 Samples.located
          (Examples.resolverOf [])) ∅
     = ({[ "1" ]} ∪ ∅, Fulfilled "any // Failed to resolve reference").
Proof.
  split; [reflexivity | split; [reflexivity | split; [apply revisits_empty|]]].
  exact (proj1 (proj2 (flatten_reference_through_first_location Examples.noTree 0
                         Samples.located (Examples.resolverOf []) ∅ Examples.declaration
                         eq_refl eq_refl (revisits_empty _))
                  [Examples.declaration] None 0 0 [] eq_refl eq_refl) eq_refl).
Defined.

(** The visited set belongs to the invocation, not to the path: whatever
    its outcome and whatever the order of the answers, a call only adds to
    the set, and once it is made, the non-empty identifier of its node is in
    it. Nothing is ever taken out when the flattening of a node is over. *)
Theorem visited_set_only_grows
    getTypeTreeAtLocation schedule fuel info resolver (seen seen' : SeenRefs) o :
  awaited schedule
    (generateFlattenedTypeDefinition getTypeTreeAtLocation fuel info resolver) seen
  = (seen', o) ->
  seen ⊆ seen'
  /\ (forall i, fuel <> 0 -> _id info = Some i -> nonempty i = true -> i ∈ seen').
Proof.
  intros Hcall. split.
  - by apply grows_flatten in Hcall.
  - intros i Hfuel Hid Hne. destruct fuel as [|fuel]; [done|].
    by apply (flatten_enters _ _ _ _ _ _ _ _ i) in Hcall.
Qed.

Lemma visited_set_only_grows_witness :
  awaited [0; 0]
    (generateFlattenedTypeDefinition Examples.noTree 3 Samples.segment
       Samples.segmentResolver) ∅
  = ({[ "2" ]} ∪ ({[ "Point" ]} ∪ ({[ "Segment" ]} ∪ ∅)),
     Fulfilled "{ from: { x: number }; to: any // Circular reference }")
  /\ "Segment" ∈ ({[ "2" ]} ∪ ({[ "Point" ]} ∪ ({[ "Segment" ]} ∪ ∅)) : gset string).
Proof.
  split; [reflexivity|].
  exact (proj2 (visited_set_only_grows Examples.noTree [0; 0] 3 Samples.segment
                  Samples.segmentResolver ∅ _ _ eq_refl)
           "Segment" ltac:(discriminate) eq_refl eq_refl).
Defined.

(** A type that occurs twice among the properties of an object is
    flattened once: every later property that carries the non-empty
    identifier of an earlier one is rendered as [any // Circular reference],
    cycle or not, and whatever the order of the answers. So
    [{ from: Point, to: Point }] flattens to
    [{ from: { x: number }; to: any // Circular reference }]. *)
Theorem repeated_property_type_rendered_circular :
  (forall getTypeTreeAtLocation fuel info resolver (seen seen' : SeenRefs) children
          n schedule text,
      kind info = Some "object" ->
      revisits (_id info) seen = false ->
      localizeChildren resolver info = Normal children -> children <> [] ->
      awaited (n :: schedule)
        (generateFlattenedTypeDefinition getTypeTreeAtLocation (S fuel) info resolver) seen
      = (seen', Fulfilled text) ->
      exists types,
        text = "{ " +:+ join "; " (zip_with propertyEntry (localizable children) types)
               +:+ " }"
        /\ length types = length (localizable children)
        /\ forall j k earlier later i,
             j < k ->
             localizable children !! j = Some earlier ->
             localizable children !! k = Some later ->
             _id earlier = Some i -> _id later = Some i -> nonempty i = true ->
             types !! k = Some "any // Circular reference")
  /\ (forall n m schedule,
         (awaited (n :: m :: schedule)
            (generateFlattenedTypeDefinition Examples.noTree 3 Samples.segment
               Samples.segmentResolver) ∅).2
         = Fulfilled "{ from: { x: number }; to: any // Circular reference }").
Proof.
  split.
  - intros gt fuel info resolver seen seen' children n schedule text Hk Hr Hc Hsome Hcall.
    apply (flatten_object_fulfilled gt n schedule fuel info resolver seen seen' children
             text Hk Hr Hc Hsome) in Hcall as (types & Hall & Hlen & ->).
    exists types. split; [done|]. split; [done|].
    intros j k earlier later i Hjk Hj Hlater Hearlier Hlid Hne.
    destruct fuel as [|fuel].
    { destruct (settlesAll_lookup _ _ _ _ _ k
                  (generateFlattenedTypeDefinition gt 0 later resolver) Hall)
        as (r & _ & Hs); [by rewrite list_lookup_fmap, Hlater|].
      by specialize (Hs OutOfFuel eq_refl). }
    apply (settlesAll_flatten_revisit gt schedule (S fuel) resolver (fun c => c) _ _ _ _ k
             later Hall Hlater).
    apply revisits_spec. exists i. split; [done|]. split; [done|].
    by apply (madeFrom_flatten_earlier gt fuel resolver (fun c => c) _ _ j k earlier i).
  - intros n m schedule. change (n :: m :: schedule) with ([n; m] ++ schedule).
    by erewrite awaited_extend; [|reflexivity|].
Qed.

Lemma repeated_property_type_rendered_circular_witness :
  kind Samples.segment = Some "object"
  /\ revisits (_id Samples.segment) ∅ = false
  /\ exists types,
       "{ from: { x: number }; to: any // Circular reference }"
       = "{ " +:+ join "; "
                    (zip_with propertyEntry
                       [asInfo (Examples.property "from" false Samples.point);
                        asInfo (Examples.property "to" false Samples.point)]
                       types)
         +:+ " }"
       /\ types !! 1 = Some "any // Circular reference".
Proof.
  split; [reflexivity | split; [apply revisits_empty|]].
  destruct (proj1 repeated_property_type_rendered_circular Examples.noTree 2
              Samples.segment Samples.segmentResolver ∅ _ _ 0 [0] _
              eq_refl (revisits_empty _) eq_refl ltac:(discriminate) eq_refl)
    as (types & Htext & _ & Hlater).
  exists types. split; [exact Htext|].
  exact (Hlater 0 1 _ _ "Point" ltac:(lia) eq_refl eq_refl eq_refl eq_refl eq_refl).
Defined.

(** An error marker is skipped among the properties of an object, but
    nowhere else: handed to the flattener as a node, it has no kind and no
    identifier, and flattens to [any]. So it fills its slot of a tuple with
    [any], and as the first child of an array it gives [any[]]. *)
Theorem error_marker_rendered_as_any :
  (forall getTypeTreeAtLocation fuel info resolver (seen seen' : SeenRefs) children
          n schedule text,
      kind info = Some "tuple" ->
      revisits (_id info) seen = false ->
      localizeChildren resolver info = Normal children ->
      awaited (n :: schedule)
        (generateFlattenedTypeDefinition getTypeTreeAtLocation (S fuel) info resolver) seen
      = (seen', Fulfilled text) ->
      exists types,
        text = "[" +:+ join ", " types +:+ "]"
        /\ length types = length children
        /\ forall k e, children !! k = Some (LocalizeError e) -> types !! k = Some "any")
  /\ (forall getTypeTreeAtLocation fuel info resolver (seen : SeenRefs) e others n schedule,
         kind info = Some "array" ->
         revisits (_id info) seen = false ->
         localizeChildren resolver info = Normal (LocalizeError e :: others) ->
         awaited (n :: schedule)
           (generateFlattenedTypeDefinition getTypeTreeAtLocation (S (S fuel)) info resolver)
           seen
         = (enter (_id info) seen, Fulfilled "any[]")).
Proof.
  split.
  - intros gt fuel info resolver seen seen' children n schedule text Hk Hr Hc.
    rewrite (awaited_call _ _ _ _ _ (flatten_tuple gt fuel info resolver seen Hr Hk)).
    intros (types & Hall & Hlen & ->)%(awaited_await_promiseAll n schedule _ _
      (fun types => "[" +:+ join ", " types +:+ "]") children); [|done].
    exists types. split; [done|]. split; [done|].
    intros k e Hlookup. by apply (settlesAll_flatten_marker gt _ _ _ _ _ _ _ _ _ Hall Hlookup).
  - intros gt fuel info resolver seen e others n schedule Hk Hr Hc.
    rewrite (awaited_call _ _ _ _ _ (flatten_array gt (S fuel) info resolver seen Hr Hk)).
    rewrite awaited_await, Hc, awaited_awaitCall. cbn [asInfo]. unfold awaited.
    rewrite flatten_noInfo. by rewrite run_Settled.
Qed.

Lemma error_marker_rendered_as_any_witness :
  kind Samples.gapped = Some "tuple"
  /\ revisits (_id Samples.gapped) ∅ = false
  /\ exists types,
       "[string, any]" = "[" +:+ join ", " types +:+ "]"
       /\ types !! 1 = Some "any".
Proof.
  split; [reflexivity | split; [apply revisits_empty|]].
  destruct (proj1 error_marker_rendered_as_any Examples.noTree 1 Samples.gapped
              Samples.gapResolver ∅ _ _ 0 [] _ eq_refl (revisits_empty _) eq_refl eq_refl)
    as (types & Htext & _ & Hmarker).
  exists types. split; [exact Htext|]. exact (Hmarker 1 "stale symbol" eq_refl).
Defined.

(** An object whose children are all error markers is not rendered as the
    empty object [{}]: the test for no children comes before the markers are
    dropped, and the braces are put around nothing, two spaces apart. No
    child is flattened. *)
Theorem object_of_error_markers_is_not_empty_braces
    getTypeTreeAtLocation fuel info resolver (seen : SeenRefs) children n schedule :
  kind info = Some "object" ->
  revisits (_id info) seen = false ->
  localizeChildren resolver info = Normal children ->
  children <> [] -> localizable children = [] ->
  awaited (n :: schedule)
    (generateFlattenedTypeDefinition getTypeTreeAtLocation (S fuel) info resolver) seen
  = (enter (_id info) seen, Fulfilled "{  }").
Proof.
  intros Hk Hr Hc Hsome Hnone.
  apply (flatten_object_fulfilled getTypeTreeAtLocation n schedule fuel info resolver seen _
           children _ Hk Hr Hc Hsome).
  exists []. rewrite Hnone. split; [apply settlesAll_nil | done].
Qed.

Lemma object_of_error_markers_is_not_empty_braces_witness :
  kind Samples.hollow = Some "object"
  /\ revisits (_id Samples.hollow) ∅ = false
  /\ awaited [0]
       (generateFlattenedTypeDefinition Examples.noTree 1 Samples.hollow Samples.gapResolver)
       ∅
     = ({[ "2" ]} ∪ ∅, Fulfilled "{  }").
Proof.
  split; [reflexivity | split; [apply revisits_empty|]].
  exact (object_of_error_markers_is_not_empty_braces Examples.noTree 0 Samples.hollow
           Samples.gapResolver ∅ _ 0 [] eq_refl (revisits_empty _) eq_refl
           ltac:(discriminate) eq_refl).
Defined.

(** The calls for the children of a node are all made before any of them
    goes on: once they are made, the identifiers of all the children are in
    the visited set. So a type that a later child has, and a node inside an
    earlier child has too, is spelled out for the later child and is
    [any // Circular reference] inside the earlier one:
    [[{ x: Name }, Name]] flattens to
    [[{ x: any // Circular reference }, string]]. And between two children
    that both await the resolver, the order of the answers decides which of
    them spells out a type they share. *)
Theorem siblings_are_entered_before_any_goes_on :
  (forall getTypeTreeAtLocation fuel resolver children (seen : SeenRefs) k child i,
      children !! k = Some child ->
      _id (asInfo child) = Some i -> nonempty i = true ->
      i ∈ (start
             (map (fun child =>
                     generateFlattenedTypeDefinition getTypeTreeAtLocation (S fuel)
                       (asInfo child) resolver)
                children) seen).1)
  /\ (forall n m schedule,
         (awaited (n :: m :: schedule)
            (generateFlattenedTypeDefinition Examples.noTree 3 Samples.couple
               Samples.coupleResolver) ∅).2
         = Fulfilled "[{ x: any // Circular reference }, string]")
  /\ (awaited [0; 0; 0]
        (generateFlattenedTypeDefinition Examples.noTree 3 Samples.rivals
           Samples.rivalsResolver) ∅).2
     = Fulfilled "[{ x: string }, { y: any // Circular reference }]"
  /\ (awaited [0; 1; 0]
        (generateFlattenedTypeDefinition Examples.noTree 3 Samples.rivals
           Samples.rivalsResolver) ∅).2
     = Fulfilled "[{ x: any // Circular reference }, { y: string }]".
Proof.
  split; [|split; [|split; reflexivity]].
  - intros gt fuel resolver children seen k child i Hk Hid Hne.
    pose proof (madeFrom_flatten_earlier gt fuel resolver asInfo children seen k
                  (length children) child i (lookup_lt_Some _ _ _ Hk) Hk Hid Hne) as Hin.
    unfold madeFrom in Hin. by rewrite take_ge in Hin by (by rewrite length_map).
  - intros n m schedule. change (n :: m :: schedule) with ([n; m] ++ schedule).
    by erewrite awaited_extend; [|reflexivity|].
Qed.

Lemma siblings_are_entered_before_any_goes_on_witness :
  [Localized Samples.holder; Localized Samples.name] !! 1 = Some (Localized Samples.name)
  /\ _id Samples.name = Some "Name"
  /\ "Name"
     ∈ (start
          (map (fun child =>
                  generateFlattenedTypeDefinition Examples.noTree 1 (asInfo child)
                    Samples.coupleResolver)
             [Localized Samples.holder; Localized Samples.name])
          ({[ "Couple" ]} ∪ ∅)).1.
Proof.
  split; [reflexivity | split; [reflexivity|]].
  exact (proj1 siblings_are_entered_before_any_goes_on Examples.noTree 0
           Samples.coupleResolver [Localized Samples.holder; Localized Samples.name]
           ({[ "Couple" ]} ∪ ∅) 1 (Localized Samples.name) "Name" eq_refl eq_refl eq_refl).
Defined.

(** ** The command *)

(** The command reports [Flattened type copied to clipboard!] exactly when
    the root tree and the resolver are there, the root localizes, its
    flattening from an empty visited set is fulfilled, the tree has a symbol,
    and the clipboard step accepts the text [type Name = Type] made of the
    symbol's name and the flattened type. *)
Theorem copy_reports_success_iff_clipboard_got_the_alias
    getTypeTreeAtLocation formatAndCopyToClipboard schedule fuel stateManager :
  copyTypeAsTypescriptType getTypeTreeAtLocation formatAndCopyToClipboard schedule fuel
    stateManager
  = Some (InformationMessage "Flattened type copied to clipboard!") <->
  exists typeInfo resolver root meta seen text,
    getTypeTree stateManager = Some typeInfo
    /\ getTypeInfoResolver stateManager = Some resolver
    /\ localize resolver (Some typeInfo) = Normal (Some root)
    /\ awaited schedule
         (generateFlattenedTypeDefinition getTypeTreeAtLocation fuel root resolver) ∅
       = (seen, Fulfilled text)
    /\ symbolMeta typeInfo = Some meta
    /\ formatAndCopyToClipboard ("type " +:+ symbolName meta +:+ " = " +:+ text)
       = Normal tt.
Proof.
  unfold copyTypeAsTypescriptType, copyAttempt. split.
  - destruct (getTypeTree stateManager) as [typeInfo|]; [|discriminate].
    destruct (getTypeInfoResolver stateManager) as [resolver|]; [|discriminate].
    destruct (localize resolver (Some typeInfo)) as [[root|]|e] eqn:L; try discriminate.
    cbn [answers andThen].
    destruct (awaited schedule (generateFlattenedTypeDefinition _ fuel root resolver) ∅)
      as [seen [text|e|]] eqn:E; try discriminate.
    destruct (symbolMeta typeInfo) as [meta|] eqn:M; [|discriminate].
    cbn [answers andThen snd].
    destruct (formatAndCopyToClipboard _) as [[]|e] eqn:F; [|discriminate].
    intros _. exists typeInfo, resolver, root, meta, seen, text. done.
  - intros (typeInfo & resolver & root & meta & seen & text & -> & -> & Hroot & Hflat
            & Hmeta & Hcopy).
    rewrite Hroot. cbn [answers andThen]. rewrite Hflat, Hmeta.
    cbn [answers andThen snd]. by rewrite Hcopy.
Qed.

Lemma copy_reports_success_iff_clipboard_got_the_alias_witness :
  Examples.clipboard "type Outer = { a: string; b?: number }" = Normal tt
  /\ copyTypeAsTypescriptType Examples.noTree Examples.clipboard [0] 2 Examples.recordState
     = Some (InformationMessage "Flattened type copied to clipboard!").
Proof.
  split; [reflexivity|].
  apply (proj2 (copy_reports_success_iff_clipboard_got_the_alias Examples.noTree
                  Examples.clipboard [0] 2 Examples.recordState)).
  exists Examples.outerTree, Examples.rootedResolver, Examples.record,
    {| symbolName := "Outer" |}, ({[ "3" ]} ∪ ({[ "2" ]} ∪ ({[ "1" ]} ∪ ∅))),
    "{ a: string; b?: number }".
  repeat split; reflexivity.
Defined.

(** A tree without a symbol, such as the type of an expression, can never
    be copied: whatever the resolver, the language server and the clipboard
    do, the command does not report success. Its name is read only after the
    whole type has been flattened, so the command reports a failure, unless
    the flattening is not settled. *)
Theorem copy_of_nameless_tree_fails
    getTypeTreeAtLocation formatAndCopyToClipboard schedule fuel stateManager typeInfo
    resolver :
  getTypeTree stateManager = Some typeInfo ->
  getTypeInfoResolver stateManager = Some resolver ->
  symbolMeta typeInfo = None ->
  copyTypeAsTypescriptType getTypeTreeAtLocation formatAndCopyToClipboard schedule fuel
    stateManager
  = Some (ErrorMessage "Failed to copy type information.")
  \/ copyTypeAsTypescriptType getTypeTreeAtLocation formatAndCopyToClipboard schedule fuel
       stateManager
     = None
     /\ exists root,
          localize resolver (Some typeInfo) = Normal (Some root)
          /\ ~ finishes
                 (awaited schedule
                    (generateFlattenedTypeDefinition getTypeTreeAtLocation fuel root
                       resolver)) ∅.
Proof.
  intros Htree Hresolver Hmeta.
  unfold copyTypeAsTypescriptType, copyAttempt. rewrite Htree, Hresolver, Hmeta.
  unfold finishes.
  destruct (localize resolver (Some typeInfo)) as [[root|]|e]; [|by left|by left].
  cbn [answers andThen].
  destruct (awaited schedule (generateFlattenedTypeDefinition _ fuel root resolver) ∅)
    as [seen [text|e|]] eqn:E; [by left | by left |].
  right. split; [done|]. exists root. split; [done|]. rewrite E. simpl. tauto.
Qed.

Lemma copy_of_nameless_tree_fails_witness :
  getTypeTree Samples.namelessState = Some Samples.namelessTree
  /\ symbolMeta Samples.namelessTree = None
  /\ (copyTypeAsTypescriptType Examples.noTree Examples.clipboard [0] 2
        Samples.namelessState
      = Some (ErrorMessage "Failed to copy type information.")
      \/ copyTypeAsTypescriptType Examples.noTree Examples.clipboard [0] 2
           Samples.namelessState
         = None
         /\ exists root,
              localize Examples.rootedResolver (Some Samples.namelessTree)
              = Normal (Some root)
              /\ ~ finishes
                     (awaited [0]
                        (generateFlattenedTypeDefinition Examples.noTree 2 root
                           Examples.rootedResolver)) ∅).
Proof.
  split; [reflexivity | split; [reflexivity|]].
  exact (copy_of_nameless_tree_fails Examples.noTree Examples.clipboard [0] 2
           Samples.namelessState Samples.namelessTree Examples.rootedResolver
           eq_refl eq_refl eq_refl).
Defined.

(** ** Labels, descriptions and icons *)

Lemma append_empty_r s : s +:+ EmptyString = s.
Proof.
  induction s as [|c s IH]; [done|].
  change (String c (s +:+ EmptyString) = String c s). by rewrite IH.
Qed.

Lemma nonempty_append s t : nonempty (s +:+ t) = nonempty s || nonempty t.
Proof. by destruct s. Qed.

Lemma nonempty_false s : nonempty s = false <-> s = EmptyString.
Proof. by destruct s. Qed.

Lemma addDecorations_nonempty text rest optional dimension :
  nonempty text = true -> nonempty (addDecorations text rest optional dimension) = true.
Proof.
  intros Hne. unfold addDecorations.
  destruct rest, optional; simpl; rewrite ?nonempty_append, ?Hne; done.
Qed.

(** Every icon id of [_getIcon] is a non-empty string. *)
Lemma _getIcon_id_nonempty info ids : _getIcon info = Normal ids -> nonempty ids.1 = true.
Proof.
  unfold _getIcon. intros H. repeat case_match; try discriminate; by injection H as <-.
Qed.

(** The icon of a node has no colour of its own: [getIcon] returns no icon
    exactly when icons are disabled, and an icon always comes with a colour,
    which is [icon.foreground] when colours are disabled and otherwise the
    icon's own id. The colour id that [_getIcon] lists beside some icon ids
    is never used. *)
Theorem getIcon_colour_is_icon_id config info :
  (getIcon config info = Normal None <-> iconsEnabled config = false)
  /\ (forall icon,
         getIcon config info = Normal (Some icon) ->
         exists declaredColour,
           _getIcon info = Normal (iconId icon, declaredColour)
           /\ iconColor icon
              = Some (if iconColorsEnabled config then iconId icon else "icon.foreground")).
Proof.
  unfold getIcon, bindC. destruct (iconsEnabled config); simpl.
  - destruct (_getIcon info) as [[id colour]|e] eqn:E; simpl.
    + split; [split; discriminate|]. intros icon.
      apply _getIcon_id_nonempty in E as Hid. simpl in Hid.
      destruct (iconColorsEnabled config); simpl; rewrite ?Hid; simpl;
        intros [= <-]; by exists colour.
    + split; [split; discriminate | discriminate].
  - split; [done | discriminate].
Qed.

Lemma getIcon_colour_is_icon_id_witness :
  getIcon Examples.allOn (Examples.node "conditional" (Some "1"))
  = Normal (Some {| iconId := "question"; iconColor := Some "question" |})
  /\ exists declaredColour,
       _getIcon (Examples.node "conditional" (Some "1"))
       = Normal ("question", declaredColour)
       /\ Some "question"
          = Some (if iconColorsEnabled Examples.allOn then "question" else "icon.foreground").
Proof.
  split; [reflexivity|].
  exact (proj2 (getIcon_colour_is_icon_id Examples.allOn
                  (Examples.node "conditional" (Some "1")))
           {| iconId := "question"; iconColor := Some "question" |} eq_refl).
Defined.

(** The label of a node is its [name] when it has one, even an empty one;
    otherwise its localized purpose between angle brackets; otherwise the
    name of its symbol unless the symbol is anonymous. An empty label stays
    empty; any other gets [...] in front for a rest element and [?] behind
    for an optional one, and never the brackets of an array dimension. *)
Theorem getLabel_precedence_and_decorations localizePurpose info :
  (forall n, name info = Some n -> getLabelBase localizePurpose info = n)
  /\ (forall p,
         name info = None -> purpose info = Some p -> nonempty p = true ->
         getLabelBase localizePurpose info = "<" +:+ localizePurpose p +:+ ">")
  /\ (name info = None -> truthy (purpose info) = false ->
      getLabelBase localizePurpose info
      = match symbol info with
        | Some s => if Symbol.anonymous s then EmptyString
                    else Symbol.name s ?? EmptyString
        | None => EmptyString
        end)
  /\ (nonempty (getLabelBase localizePurpose info) = true ->
      getLabel localizePurpose info
      = (if rest info then "..." else EmptyString)
          +:+ getLabelBase localizePurpose info
          +:+ (if optional info then "?" else EmptyString))
  /\ (getLabel localizePurpose info = EmptyString <->
      getLabelBase localizePurpose info = EmptyString).
Proof.
  unfold getLabel, getLabelBase, getLabelOverride, getLabelByName, getLabelByPurpose.
  split; [|split; [|split; [|split]]].
  - by intros n ->.
  - by intros p -> -> ->.
  - intros -> Hp. destruct (purpose info) as [p|]; simpl in Hp; [rewrite Hp|];
      by destruct (symbol info) as [[? []]|].
  - intros ->. simpl. unfold addDecorations. simpl. rewrite append_empty_r.
    destruct (rest info), (optional info); simpl; by rewrite ?append_empty_r.
  - match goal with |- context [nonempty ?b] => set (base := b) end.
    destruct (nonempty base) eqn:Hb; simpl.
    + split.
      * intros Hempty. pose proof (addDecorations_nonempty base (rest info) (optional info)
                                     None Hb) as Hne.
        rewrite Hempty in Hne. discriminate.
      * intros Hempty. rewrite Hempty in Hb. discriminate.
    + apply nonempty_false in Hb. by rewrite Hb.
Qed.

Lemma getLabel_precedence_and_decorations_witness :
  nonempty (getLabelBase Examples.verbatim Samples.items) = true
  /\ getLabel Examples.verbatim Samples.items = "items?".
Proof.
  split; [reflexivity|].
  exact (proj1 (proj2 (proj2 (proj2 (getLabel_precedence_and_decorations Examples.verbatim
                                       Samples.items)))) eq_refl).
Defined.

Lemma addDecorations_dimension text info :
  addDecorations text false false (dimension info) = text +:+ brackets info.
Proof. reflexivity. Qed.

(** The parts of the description of a node whose kind text is there. *)
Lemma getDescriptionParts_present config localizePurpose info text :
  kindText info = Some text -> nonempty text = true ->
  getDescriptionParts config localizePurpose info
  = {| parts_alias :=
         match
           match alias info with
           | Some a => Some a
           | None =>
               if truthy (getLabelOverride localizePurpose info)
                  && negb (bool_decide (purpose info = Some "jsx_properties"))
               then mbind Symbol.name (symbol info)
               else None
           end
         with
         | Some a => if nonempty a then Some (a +:+ brackets info) else Some a
         | None => None
         end;
       parts_base := Some (text +:+ brackets info);
       parts_readonly := readonly info && readonlyEnabled config |}.
Proof. intros Hk Ht. unfold getDescriptionParts. by rewrite Hk, Ht. Qed.

(** A node has a description exactly when its [kindText] is a non-empty
    string. The description is then the kind text with the brackets of the
    node's dimension, after [readonly ] when the node is readonly and the
    setting shows it; when the node has a non-empty alias, the alias comes
    first, with the same brackets, and the kind text follows between
    parentheses. An empty alias shows nothing, but still keeps the name of
    the symbol from being used in its place. *)
Theorem getDescription_shape config localizePurpose info :
  (getDescription config localizePurpose info = None <-> truthy (kindText info) = false)
  /\ (forall text,
         kindText info = Some text -> nonempty text = true ->
         (forall a,
             alias info = Some a -> nonempty a = true ->
             getDescription config localizePurpose info
             = Some (readonlyPrefix config info
                     +:+ (a +:+ brackets info) +:+ " (" +:+ (text +:+ brackets info) +:+ ")"))
         /\ (alias info = Some EmptyString ->
             getDescription config localizePurpose info
             = Some (readonlyPrefix config info +:+ text +:+ brackets info))
         /\ (alias info = None ->
             truthy (getLabelOverride localizePurpose info) = false
             \/ purpose info = Some "jsx_properties" ->
             getDescription config localizePurpose info
             = Some (readonlyPrefix config info +:+ text +:+ brackets info))
         /\ (forall n,
                alias info = None ->
                truthy (getLabelOverride localizePurpose info) = true ->
                purpose info <> Some "jsx_properties" ->
                mbind Symbol.name (symbol info) = Some n -> nonempty n = true ->
                getDescription config localizePurpose info
                = Some (readonlyPrefix config info
                        +:+ (n +:+ brackets info) +:+ " (" +:+ (text +:+ brackets info)
                        +:+ ")"))).
Proof.
  unfold getDescription, readonlyPrefix. split.
  - destruct (kindText info) as [text|] eqn:Hk; [|by unfold getDescriptionParts; rewrite Hk].
    destruct (nonempty text) eqn:Ht.
    + rewrite (getDescriptionParts_present _ _ _ _ Hk Ht).
      unfold descriptionPartsToString. cbn [parts_base].
      rewrite nonempty_append, Ht. simpl. rewrite Ht. split; discriminate.
    + unfold getDescriptionParts. rewrite Hk, Ht. simpl. by rewrite Ht.
  - intros text Hk Ht. rewrite (getDescriptionParts_present _ _ _ _ Hk Ht).
    unfold descriptionPartsToString. cbn [parts_base parts_alias parts_readonly].
    rewrite nonempty_append, Ht. cbn [orb negb].
    split; [|split; [|split]].
    + intros a -> Ha. rewrite Ha. cbn [truthy nullish]. rewrite nonempty_append, Ha.
      cbn [orb]. by destruct (readonly info && readonlyEnabled config).
    + intros ->. cbn [nonempty truthy]. by destruct (readonly info && readonlyEnabled config).
    + intros -> Hnone.
      assert (truthy (getLabelOverride localizePurpose info)
              && negb (bool_decide (purpose info = Some "jsx_properties")) = false) as ->.
      { destruct Hnone as [-> | ->]; [done|]. apply andb_false_r. }
      cbn [truthy]. by destruct (readonly info && readonlyEnabled config).
    + intros n -> -> Hp -> Hn. rewrite bool_decide_eq_false_2 by done. cbn [andb negb].
      rewrite Hn. cbn [truthy nullish]. rewrite nonempty_append, Hn.
      cbn [orb]. by destruct (readonly info && readonlyEnabled config).
Qed.

Lemma getDescription_shape_witness :
  kindText Samples.items = Some "array" /\ nonempty "array" = true
  /\ alias Samples.items = Some "Items" /\ nonempty "Items" = true
  /\ getDescription Examples.allOn Examples.verbatim Samples.items
     = Some "readonly Items[][] (array[][])".
Proof.
  split; [reflexivity | split; [reflexivity | split; [reflexivity | split; [reflexivity|]]]].
  exact (proj1 (proj2 (getDescription_shape Examples.allOn Examples.verbatim Samples.items)
                  "array" eq_refl eq_refl) "Items" eq_refl eq_refl).
Defined.

(** The length of a text of ASCII characters is the number of its
    characters. *)
Lemma String_length_ascii s :
  Forall (fun c => nat_of_ascii c < 128) (list_ascii_of_string s) ->
  String_length s = String.length s.
Proof.
  induction s as [|c s IH]; [done|]. cbn [list_ascii_of_string].
  intros [Hc Hs]%Forall_cons. cbn [String_length String.length].
  rewrite (proj2 (Nat.ltb_lt _ _) Hc). by rewrite IH.
Qed.

(** With the setting off, or for a node that shows no alias, the
    description with type arguments is the plain description. Otherwise the
    alias is followed by the arguments between angle brackets, before the
    kind text between parentheses: the texts of the arguments joined with
    [, ] when that is not longer than the maximal length (10 when none is
    set), and [...] in its place when it is longer, and only then. The
    length counts UTF-16 code units: the characters of an ASCII text, and 9
    for [Größenmaß]. With no argument at all the joined text is empty, and
    the alias gets an empty pair [<>] unless the maximal length is
    negative. *)
Theorem getDescriptionWithTypeArguments_shape
    config localizePurpose enabled maxLength typeArguments info arguments :
  let described :=
    getDescriptionWithTypeArguments config localizePurpose enabled maxLength typeArguments
      info arguments in
  let parts := getDescriptionParts config localizePurpose info in
  let joined :=
    join ", " (map (typeArgumentText config localizePurpose typeArguments) arguments) in
  (enabled = false \/ truthy (parts_alias parts) = false ->
   described = getDescription config localizePurpose info)
  /\ (forall a text,
         enabled = true -> parts_alias parts = Some a -> nonempty a = true ->
         kindText info = Some text ->
         ((Z.of_nat (String_length joined) <= maxLength ?? 10)%Z ->
          described
          = Some (readonlyPrefix config info
                  +:+ (a +:+ "<" +:+ joined +:+ ">") +:+ " (" +:+ (text +:+ brackets info)
                  +:+ ")"))
         /\ ((maxLength ?? 10 < Z.of_nat (String_length joined))%Z ->
             described
             = Some (readonlyPrefix config info
                     +:+ (a +:+ "<...>") +:+ " (" +:+ (text +:+ brackets info) +:+ ")")))
  /\ (arguments = [] -> joined = EmptyString)
  /\ (forall s,
         Forall (fun c => nat_of_ascii c < 128) (list_ascii_of_string s) ->
         String_length s = String.length s)
  /\ String_length "Größenmaß" = 9.
Proof.
  intros described parts joined. subst described parts.
  unfold getDescriptionWithTypeArguments, getDescription.
  split; [|split; [|split; [by intros -> | split; [apply String_length_ascii | reflexivity]]]].
  - intros [-> | ->]; [done|]. by destruct enabled.
  - intros a text -> Ha Hne Hk.
    assert (nonempty text = true) as Ht.
    { destruct (nonempty text) eqn:E; [done|]. revert Ha. unfold getDescriptionParts.
      by rewrite Hk, E. }
    rewrite Ha. cbn [truthy]. rewrite Hne. fold joined.
    rewrite (getDescriptionParts_present _ _ _ _ Hk Ht) in Ha |- *.
    cbn [parts_base parts_alias parts_readonly nullish].
    unfold descriptionPartsToString, readonlyPrefix.
    cbn [parts_base parts_alias parts_readonly truthy nullish].
    rewrite !nonempty_append, Ht, Hne. cbn [orb negb].
    split; intros Hlen.
    + rewrite (proj2 (Z.ltb_ge _ _) Hlen).
      by destruct (readonly info && readonlyEnabled config).
    + rewrite (proj2 (Z.ltb_lt _ _) Hlen).
      by destruct (readonly info && readonlyEnabled config).
Qed.

Lemma getDescriptionWithTypeArguments_shape_witness :
  parts_alias (getDescriptionParts Examples.allOn Examples.verbatim Samples.items)
  = Some "Items[][]"
  /\ kindText Samples.items = Some "array"
  /\ (10 < Z.of_nat (String_length "Items[][], string"))%Z
  /\ getDescriptionWithTypeArguments Examples.allOn Examples.verbatim true None
       (fun _ => None) Samples.items [Samples.items; Examples.primitive "string" "2"]
     = Some "readonly Items[][]<...> (array[][])".
Proof.
  assert (10 < Z.of_nat (String_length "Items[][], string"))%Z as Hlong
    by (vm_compute; reflexivity).
  split; [reflexivity | split; [reflexivity | split; [exact Hlong|]]].
  exact (proj2 (proj1 (proj2 (getDescriptionWithTypeArguments_shape Examples.allOn
                                Examples.verbatim true None (fun _ => None) Samples.items
                                [Samples.items; Examples.primitive "string" "2"]))
                  "Items[][]" "array" eq_refl eq_refl eq_refl eq_refl) Hlong).
Defined.

(** What is shown for one type argument: [???] when the argument has no
    kind text, hence no description; its kind text with its brackets when it
    shows no alias; and otherwise its alias, followed by [<...>] exactly when
    the alias is not empty and the argument has type arguments of its own,
    which are never spelled out. *)
Theorem typeArgumentText_cases config localizePurpose typeArguments arg :
  let parts := getDescriptionParts config localizePurpose arg in
  let shown := typeArgumentText config localizePurpose typeArguments arg in
  (truthy (kindText arg) = false -> shown = "???")
  /\ (forall text,
         kindText arg = Some text -> nonempty text = true -> parts_alias parts = None ->
         shown = text +:+ brackets arg)
  /\ (forall a,
         parts_alias parts = Some a ->
         (nonempty a = true ->
          (forall argument others, typeArguments arg = Some (argument :: others) ->
                                   shown = a +:+ "<...>")
          /\ (typeArguments arg = None \/ typeArguments arg = Some [] -> shown = a))
         /\ (a = EmptyString -> shown = EmptyString)).
Proof.
  intros parts shown. subst parts shown. unfold typeArgumentText. split; [|split].
  - intros Hk. unfold getDescriptionParts.
    destruct (kindText arg) as [text|]; [|done]. simpl in Hk. by rewrite Hk.
  - intros text Hk Ht Ha. rewrite Ha. cbn [truthy andb nullish].
    by rewrite (getDescriptionParts_present _ _ _ _ Hk Ht).
  - intros a ->. cbn [truthy]. split.
    + intros ->. split.
      * by intros argument others ->.
      * by intros [-> | ->].
    + by intros ->.
Qed.

Lemma typeArgumentText_cases_witness :
  truthy (kindText (Examples.node "object" (Some "1"))) = false
  /\ typeArgumentText Examples.allOn Examples.verbatim (fun _ => None)
       (Examples.node "object" (Some "1"))
     = "???".
Proof.
  split; [reflexivity|].
  exact (proj1 (typeArgumentText_cases Examples.allOn Examples.verbatim (fun _ => None)
                  (Examples.node "object" (Some "1"))) eq_refl).
Defined.
